(** * EvaSoil dashboard: the sensor analytics of [src/app/page.tsx] and the
      ingest route of [src/app/api/sensor-data/route.ts]

    The development embeds the dashboard component as a state record with
    one transition per handler (query completion, realtime INSERT, range
    selection, timer), the statistics routine [calculateStats] as a pure
    function of the readings, and the POST handler of the ingest route as a
    function from the parsed JSON body and the server clock to the row that
    is inserted.

    JavaScript numbers are modelled as rationals extended with the two
    infinities and NaN, with the special values that [x / 0] and [x || 0]
    produce and consume.  The arithmetic of the statistics (sums, means,
    differences) is the exact one on the rationals: the rounding and the
    overflow of IEEE doubles in these operations are not modelled, and what
    is proved of the statistics is proved of the formulas.  The conversion
    of text to a number in the ingest route does round: [parseFloat] yields
    the nearest double, an infinity beyond the range, and zero below it. *)

From Stdlib Require Import QArith Qminmax Qpower ZArith Lia Lqa Ascii.
From stdpp Require Import base list strings gmap sorting.

Local Open Scope Z_scope.

(** ** JavaScript numbers *)

Module JS.

Inductive number : Type :=
  | Fin (q : Q)
  | PosInf
  | NegInf
  | NaN.

(** Numeric agreement of two numbers as values ([Q] has several
    representations of one rational). *)
Definition same (a b : number) : Prop :=
  match a, b with
  | Fin x, Fin y => (x == y)%Q
  | PosInf, PosInf | NegInf, NegInf | NaN, NaN => True
  | _, _ => False
  end.

Infix "≈" := same (at level 70, no associativity).

(** [s / n] for a finite [s] and an array length [n] (a non-negative
    integer): [0 / 0] is NaN, [s / 0] is an infinity with the sign of [s]. *)
Definition div_length (s : Q) (n : nat) : number :=
  match n with
  | O => if Qeq_bool s 0 then NaN
         else if Qle_bool 0 s then PosInf else NegInf
  | S _ => Fin (s / inject_Z (Z.of_nat n))
  end.

(** [x || 0]: the falsy numbers are zero and NaN. *)
Definition or_zero (x : number) : number :=
  match x with
  | Fin q => if Qeq_bool q 0 then Fin 0 else Fin q
  | NaN => Fin 0
  | PosInf => PosInf
  | NegInf => NegInf
  end.

(** [a - b]. *)
Definition sub (a b : number) : number :=
  match a, b with
  | Fin x, Fin y => Fin (x - y)
  | NaN, _ | _, NaN => NaN
  | PosInf, PosInf | NegInf, NegInf => NaN
  | PosInf, _ => PosInf
  | NegInf, _ => NegInf
  | Fin _, PosInf => NegInf
  | Fin _, NegInf => PosInf
  end.

(** [a < b]: false as soon as one side is NaN. *)
Definition lt (a b : number) : bool :=
  match a, b with
  | NaN, _ | _, NaN => false
  | Fin x, Fin y => negb (Qle_bool y x)
  | NegInf, NegInf | PosInf, _ => false
  | NegInf, _ => true
  | Fin _, PosInf => true
  | Fin _, NegInf => false
  end.

(** [Math.min(...xs)] and [Math.max(...xs)] over finite arguments; with no
    argument they are [Infinity] and [-Infinity]. *)
Definition Math_min (xs : list Q) : number :=
  match xs with
  | [] => PosInf
  | x :: xs' => Fin (foldl Qmin x xs')
  end.

Definition Math_max (xs : list Q) : number :=
  match xs with
  | [] => NegInf
  | x :: xs' => Fin (foldl Qmax x xs')
  end.

(** [xs.reduce((a, b) => a + b, 0)], as the exact sum: the additions are
    not rounded and do not overflow. *)
Definition sum (xs : list Q) : Q := foldl Qplus 0%Q xs.

(** Relative index of [Array.prototype.slice]: a negative index counts from
    the end, and every index is clamped to [0 .. len]. *)
Definition relative_index (len : nat) (i : Z) : nat :=
  if i <? 0 then Z.to_nat (Z.max (Z.of_nat len + i) 0)
  else Z.to_nat (Z.min i (Z.of_nat len)).

(** [l.slice(start, stop)]; [stop = None] is the one-argument call. *)
Definition slice {A} (start : Z) (stop : option Z) (l : list A) : list A :=
  let k := relative_index (length l) start in
  let final := match stop with
               | Some e => relative_index (length l) e
               | None => length l
               end in
  take (final - k) (drop k l).

End JS.

Import JS.
Infix "≈" := JS.same (at level 70, no associativity).

(** ** Readings *)

(** A row of [sensor_readings].  The type [SensorReading] is declared in
    [lib/supabase]; the fields are those the dashboard reads, with the
    row's primary key [id]. [created_at] is the row's timestamp in
    milliseconds. *)
Record SensorReading : Type := {
  id : Z;
  device_id : string;
  moisture : Q;
  temperature : Q;
  light_lux : Q;
  created_at : Z
}.

(** ** Statistics *)

Record Stats : Type := {
  moistureAvg : number;
  moistureTrend : number;
  tempAvg : number;
  tempTrend : number;
  lightAvg : number;
  lightTrend : number;
  totalReadings : nat;
  moistureMin : number;
  moistureMax : number;
  tempMin : number;
  tempMax : number;
  lightMin : number;
  lightMax : number
}.

(** The initial value of the [stats] state. *)
Definition initial_stats : Stats := {|
  moistureAvg := Fin 0; moistureTrend := Fin 0;
  tempAvg := Fin 0; tempTrend := Fin 0;
  lightAvg := Fin 0; lightTrend := Fin 0;
  totalReadings := 0;
  moistureMin := Fin 0; moistureMax := Fin 0;
  tempMin := Fin 0; tempMax := Fin 0;
  lightMin := Fin 0; lightMax := Fin 0
|}.

(** [values.reduce(+, 0) / values.length]. *)
Definition average (values : list Q) : number :=
  div_length (sum values) (length values).

(** The trend expression, written three times in [calculateStats] (once per
    metric):
    [(recent.reduce(+,0) / recent.length || 0)
       - (old.reduce(+,0) / old.length || 0)]
    with [recent = values.slice(-10)] and [old = values.slice(-20, -10)]. *)
Definition trend (values : list Q) : number :=
  let recent := slice (-10) None values in
  let old := slice (-20) (Some (-10)) values in
  sub (or_zero (div_length (sum recent) (length recent)))
      (or_zero (div_length (sum old) (length old))).

(** [calculateStats readings]: [None] is the early [return] taken when
    fewer than two readings are given (no call of [setStats]); [Some s] is
    the record passed to [setStats]. *)
Definition calculateStats (readings : list SensorReading) : option Stats :=
  if (length readings <? 2)%nat then None
  else
    let moistureValues := moisture <$> readings in
    let tempValues := temperature <$> readings in
    let lightValues := light_lux <$> readings in
    Some {|
      moistureAvg := average moistureValues;
      moistureTrend := trend moistureValues;
      tempAvg := average tempValues;
      tempTrend := trend tempValues;
      lightAvg := average lightValues;
      lightTrend := trend lightValues;
      totalReadings := length readings;
      moistureMin := Math_min moistureValues;
      moistureMax := Math_max moistureValues;
      tempMin := Math_min tempValues;
      tempMax := Math_max tempValues;
      lightMin := Math_min lightValues;
      lightMax := Math_max lightValues
    |}.

(** ** The dashboard component *)

Inductive TimeRange : Type := R1h | R6h | R24h | R7d | R30d.

Global Instance TimeRange_eq_dec : EqDecision TimeRange.
Proof. solve_decision. Defined.

(** The state cells of [Dashboard] ([useState]). *)
Record Dashboard : Type := {
  data : list SensorReading;
  latest : option SensorReading;
  loading : bool;
  timeRange : TimeRange;
  stats : Stats
}.

Definition setData (v : list SensorReading) (st : Dashboard) : Dashboard :=
  {| data := v; latest := latest st; loading := loading st;
     timeRange := timeRange st; stats := stats st |}.

Definition setLatest (v : option SensorReading) (st : Dashboard) : Dashboard :=
  {| data := data st; latest := v; loading := loading st;
     timeRange := timeRange st; stats := stats st |}.

Definition setLoading (v : bool) (st : Dashboard) : Dashboard :=
  {| data := data st; latest := latest st; loading := v;
     timeRange := timeRange st; stats := stats st |}.

Definition setTimeRange (v : TimeRange) (st : Dashboard) : Dashboard :=
  {| data := data st; latest := latest st; loading := loading st;
     timeRange := v; stats := stats st |}.

Definition setStats (v : Stats) (st : Dashboard) : Dashboard :=
  {| data := data st; latest := latest st; loading := loading st;
     timeRange := timeRange st; stats := v |}.

(** The state at mount. *)
Definition initial_dashboard : Dashboard := {|
  data := [];
  latest := None;
  loading := true;
  timeRange := R6h;
  stats := initial_stats
|}.

(** [calculateStats(readings)] as a statement: [setStats] is called unless
    the routine returned early. *)
Definition run_calculateStats (readings : list SensorReading)
    (st : Dashboard) : Dashboard :=
  match calculateStats readings with
  | Some s => setStats s st
  | None => st
  end.

(** What the awaited range query resolves to: [{ data: readings, error }]. *)
Record QueryResult : Type := {
  readings : option (list SensorReading);
  error : bool
}.

Definition succeeded (rs : list SensorReading) : QueryResult :=
  {| readings := Some rs; error := false |}.

(** [fetchData] up to its [await]: [setLoading(true)], then the query is
    issued. *)
Definition fetchData_start (st : Dashboard) : Dashboard := setLoading true st.

(** [fetchData] after its [await]. *)
Definition fetchData_resume (res : QueryResult) (st : Dashboard) : Dashboard :=
  let st1 :=
    match error res, readings res with
    | false, Some rs =>
        let st' := setData rs st in
        if (0 <? length rs)%nat
        then run_calculateStats rs (setLatest (last rs) st')
        else st'
    | _, _ => st
    end in
  setLoading false st1.

(** The updater of the realtime INSERT handler:
    [(prev) => [...prev, newReading].slice(-1000)]. *)
Definition append_reading (newReading : SensorReading)
    (prev : list SensorReading) : list SensorReading :=
  slice (-1000) None (prev ++ [newReading]).

(** The realtime INSERT handler. *)
Definition on_insert (newReading : SensorReading) (st : Dashboard) : Dashboard :=
  setLatest (Some newReading)
    (setData (append_reading newReading (data st)) st).

(** [clearHistory] once the DELETE request reported success. *)
Definition history_cleared (st : Dashboard) : Dashboard :=
  setLatest None (setData [] st).

(** *** Alerts rendered from [latest] *)

Definition low_moisture_alert (r : SensorReading) : bool :=
  JS.lt (Fin (moisture r)) (Fin 30).

Definition low_light_alert (r : SensorReading) : bool :=
  JS.lt (Fin (light_lux r)) (Fin 100).

(** What the component renders of the alerts: nothing while [loading] (the
    loading screen is returned instead) and nothing without [latest]. *)
Record Alerts : Type := { lowMoisture : bool; lowLight : bool }.

Definition render_alerts (st : Dashboard) : Alerts :=
  if loading st then {| lowMoisture := false; lowLight := false |}
  else match latest st with
       | Some r => {| lowMoisture := low_moisture_alert r;
                      lowLight := low_light_alert r |}
       | None => {| lowMoisture := false; lowLight := false |}
       end.

(** The thresholds held by [SettingsModal] and saved to [localStorage]. *)
Record Thresholds : Type := {
  moistureThreshold : Q;
  tempThresholdLow : Q;
  tempThresholdHigh : Q;
  lightThreshold : Q
}.

(** The modal's initial thresholds. *)
Definition default_thresholds : Thresholds := {|
  moistureThreshold := 30;
  tempThresholdLow := 15;
  tempThresholdHigh := 28;
  lightThreshold := 100
|}.

(** *** The session: the component with its pending asynchronous work *)

(** [timer] is the pending [setTimeout(..., 0)] of the fetch effect, with
    the [timeRange] that its [fetchData] closes over; [inflight] lists the
    range queries awaiting their response, oldest first, each with the
    [timeRange] it was issued for. *)
Record Session : Type := {
  ui : Dashboard;
  timer : option TimeRange;
  inflight : list TimeRange
}.

Inductive Event : Type :=
  | SelectRange (r : TimeRange)
  | TimerFires
  | QueryCompletes (n : nat) (res : QueryResult)
  | Insert (newReading : SensorReading)
  | HistoryCleared.

(** After mount: the fetch effect has scheduled its timer. *)
Definition mounted : Session :=
  {| ui := initial_dashboard; timer := Some R6h; inflight := [] |}.

(** One handler invocation.
    - [SelectRange r] is [setTimeRange(r)]: with a new value, [fetchData]
      is rebuilt, the effect's cleanup clears the pending timer and the
      effect schedules a new one; with the current value nothing re-renders.
    - [TimerFires] runs the timer callback, which calls [fetchData].
    - [QueryCompletes n res] resumes the [n]-th in-flight [fetchData]. *)
Definition step (s : Session) (e : Event) : Session :=
  match e with
  | SelectRange r =>
      if decide (r = timeRange (ui s)) then s
      else {| ui := setTimeRange r (ui s); timer := Some r;
              inflight := inflight s |}
  | TimerFires =>
      match timer s with
      | Some r => {| ui := fetchData_start (ui s); timer := None;
                     inflight := inflight s ++ [r] |}
      | None => s
      end
  | QueryCompletes n res =>
      match inflight s !! n with
      | Some _ => {| ui := fetchData_resume res (ui s); timer := timer s;
                     inflight := delete n (inflight s) |}
      | None => s
      end
  | Insert newReading =>
      {| ui := on_insert newReading (ui s); timer := timer s;
         inflight := inflight s |}
  | HistoryCleared =>
      {| ui := history_cleared (ui s); timer := timer s;
         inflight := inflight s |}
  end.

Definition run (s : Session) (es : list Event) : Session := foldl step s es.

(** *** What the rendered page offers *)

(** A handler changes the state at once; React commits the page rendered
    from that state later, in a task of its own.  Until then the page of
    the last commit is in the document and takes the clicks.  [shown] is
    the [loading] flag of the last commit: the range buttons are part of
    the main view, which the loading screen replaces when [loading] is
    committed as true.  The other events (timer, query completion, live
    push, answer to the clear request) do not come from the page. *)
Definition offered (shown : bool) (e : Event) : bool :=
  match e with
  | SelectRange _ => negb shown
  | _ => true
  end.

(** What happens next: a handler runs, or React commits. *)
Inductive Action : Type :=
  | Handle (e : Event)
  | Commit.

(** One action on a session with the [loading] flag of its last commit;
    [None] when the event is not offered. *)
Definition act (p : Session * bool) (a : Action) : option (Session * bool) :=
  match a with
  | Handle e => if offered p.2 e then Some (step p.1 e, p.2) else None
  | Commit => Some (p.1, loading (ui p.1))
  end.

Fixpoint acts (p : Session * bool) (l : list Action)
    : option (Session * bool) :=
  match l with
  | [] => Some p
  | a :: l' => match act p a with
               | Some p' => acts p' l'
               | None => None
               end
  end.

(** The sessions the page can be in, each with the [loading] flag of its
    last commit.  The first render, at mount, shows the loading screen. *)
Inductive rendering : Session -> bool -> Prop :=
  | rendering_mounted : rendering mounted true
  | rendering_commit s shown :
      rendering s shown -> rendering s (loading (ui s))
  | rendering_handle s shown e :
      rendering s shown -> offered shown e = true ->
      rendering (step s e) shown.

Definition reachable (s : Session) : Prop := ∃ shown, rendering s shown.

(** ** Number values *)

(** A finite number of the program is an IEEE 754 binary64 value.
    [round_double q] is the number value for the real [q], as the
    conversion of a decimal literal produces it: the nearest double, ties
    to the even significand, an infinity when the rounded magnitude
    reaches [2 ^ 1024], and [0] below half the least subnormal. *)
Module Double.

(** [n / d] rounded to the nearest integer, ties to even ([0 < d]). *)
Definition round_half_even (n d : Z) : Z :=
  let f := n / d in
  match (2 * (n mod d)) ?= d with
  | Lt => f
  | Gt => f + 1
  | Eq => if Z.even f then f else f + 1
  end.

(** Numerator and denominator of [(n / d) / 2 ^ k]. *)
Definition scaled (n d k : Z) : Z * Z :=
  if 0 <=? k then (n, d * 2 ^ k) else (n * 2 ^ (- k), d).

(** The [e] with [2 ^ e <= n / d < 2 ^ (e + 1)], for [0 < n], [0 < d]. *)
Definition binade (n d : Z) : Z :=
  let e0 := Z.log2 n - Z.log2 d in
  let '(n', d') := scaled n d e0 in
  if d' <=? n' then e0 else e0 - 1.

Definition round_double (q : Q) : number :=
  let r := Qred q in
  let n := Z.abs (Qnum r) in
  let d := Zpos (Qden r) in
  if n =? 0 then Fin 0
  else
    let p := Z.max (binade n d - 52) (-1074) in
    let '(n', d') := scaled n d p in
    let m := round_half_even n' d' in
    if m =? 0 then Fin 0
    else if 1024 <=? Z.log2 m + p then
      (if Qnum r <? 0 then NegInf else PosInf)
    else Fin (inject_Z (Z.sgn (Qnum r) * m) * Qpower 2 p).

End Double.

(** ** The ingest route: [POST /api/sensor-data] *)

Module Ingest.

(** A value produced by [request.json()].  Strings are UTF-8 text; [JNum q]
    is the finite number of value [q], and [JInfinity] the number that a
    literal beyond the range of the doubles (such as [1e999]) parses to. *)
#[warnings="-register-all"]
Inductive json : Type :=
  | JNull
  | JBool (b : bool)
  | JNum (q : Q)
  | JInfinity (negative : bool)
  | JStr (s : string)
  | JArr (items : list json)
  | JObj (fields : gmap string json).

(** *** [parseFloat] on a string *)

(** The three-byte members of StrWhiteSpaceChar: U+1680, U+2000 to U+200A,
    U+2028, U+2029, U+202F, U+205F, U+3000 and U+FEFF. *)
Definition is_space3 (b1 b2 b3 : nat) : bool :=
  ((b1 =? 225) && (b2 =? 154) && (b3 =? 128)
   || (b1 =? 226) && (b2 =? 128)
      && ((128 <=? b3) && (b3 <=? 138) || (b3 =? 168) || (b3 =? 169)
          || (b3 =? 175))
   || (b1 =? 226) && (b2 =? 129) && (b3 =? 159)
   || (b1 =? 227) && (b2 =? 128) && (b3 =? 128)
   || (b1 =? 239) && (b2 =? 187) && (b3 =? 191))%nat.

(** Drops the leading StrWhiteSpaceChar characters (WhiteSpace and
    LineTerminator): TAB, LF, VT, FF, CR and SP, U+00A0, and the
    three-byte ones. *)
Fixpoint skip_space (s : string) : string :=
  match s with
  | String c1 s1 =>
      let b1 := nat_of_ascii c1 in
      if ((9 <=? b1) && (b1 <=? 13) || (b1 =? 32))%nat then skip_space s1
      else
        match s1 with
        | String c2 s2 =>
            let b2 := nat_of_ascii c2 in
            if ((b1 =? 194) && (b2 =? 160))%nat then skip_space s2
            else
              match s2 with
              | String c3 s3 =>
                  if is_space3 b1 b2 (nat_of_ascii c3) then skip_space s3
                  else s
              | EmptyString => s
              end
        | EmptyString => s
        end
  | EmptyString => s
  end.

Definition digit_value (c : ascii) : option Z :=
  let n := Z.of_nat (nat_of_ascii c) in
  if (48 <=? n) && (n <=? 57) then Some (n - 48) else None.

(** The longest run of decimal digits at the head of [s]: the value of
    [acc] followed by those digits, how many were read, and the rest. *)
Fixpoint digits (acc : Z) (s : string) : Z * nat * string :=
  match s with
  | String c s' =>
      match digit_value c with
      | Some d => let '(v, n, r) := digits (10 * acc + d) s' in (v, S n, r)
      | None => (acc, O, s)
      end
  | EmptyString => (acc, O, s)
  end.

(** The value of an optional ExponentPart at the head of [s]; [e] or [E]
    not followed by a SignedInteger is no exponent. *)
Definition exponent (s : string) : Z :=
  match s with
  | String c t =>
      if (Ascii.eqb c "e" || Ascii.eqb c "E")%bool then
        let '(negative, t') :=
          match t with
          | String d u =>
              if Ascii.eqb d "-" then (true, u)
              else if Ascii.eqb d "+" then (false, u)
              else (false, t)
          | EmptyString => (false, t)
          end in
        let '(v, n, _) := digits 0 t' in
        match n with
        | O => 0
        | S _ => if negative then - v else v
        end
      else 0
  | EmptyString => 0
  end.

(** The longest prefix that is a StrUnsignedDecimalLiteral, as a number:
    [Infinity], or digits, an optional dot with digits and an optional
    exponent, of which at least one digit before the exponent. *)
Definition unsigned_literal (s : string) : number :=
  if String.prefix "Infinity" s then PosInf
  else
    let '(iv, ic, r1) := digits 0 s in
    let '(mv, fc, r2) :=
      match r1 with
      | String c t => if Ascii.eqb c "." then digits iv t else (iv, O, r1)
      | EmptyString => (iv, O, r1)
      end in
    match (ic + fc)%nat with
    | O => NaN
    | S _ =>
        Double.round_double
          (inject_Z mv * Qpower 10 (exponent r2 - Z.of_nat fc))
    end.

Definition negate (x : number) : number :=
  match x with
  | Fin q => Fin (- q)
  | PosInf => NegInf
  | NegInf => PosInf
  | NaN => NaN
  end.

Definition parseFloat_string (s : string) : number :=
  match skip_space s with
  | String c t =>
      if Ascii.eqb c "-" then negate (unsigned_literal t)
      else if Ascii.eqb c "+" then unsigned_literal t
      else unsigned_literal (String c t)
  | EmptyString => NaN
  end.

(** *** [parseFloat] on a JSON value *)

(** Whether ToString succeeds: an object whose own [toString] property
    shadows the inherited method has no primitive value (TypeError), and
    an array converts each of its elements. *)
Fixpoint stringifies (v : json) : bool :=
  match v with
  | JArr items => forallb stringifies items
  | JObj fields => bool_decide (fields !! "toString"%string = None)
  | _ => true
  end.

(** [parseFloat(v)] for a value that stringifies; [None] is [undefined].
    A number reads back from its own literal; an array's text starts with
    the text of its first element, followed by a comma or nothing. *)
Fixpoint parseFloat_value (v : json) : number :=
  match v with
  | JNum q => Fin q
  | JInfinity negative => if negative then NegInf else PosInf
  | JStr s => parseFloat_string s
  | JArr (x :: _) => parseFloat_value x
  | JArr [] | JNull | JBool _ | JObj _ => NaN
  end.

Definition parseFloat (v : option json) : option number :=
  match v with
  | None => Some NaN
  | Some x => if stringifies x then Some (parseFloat_value x) else None
  end.

(** [body.key]; [None] is [undefined], and a [null] body has no
    properties to read (the caller sees the TypeError). *)
Definition property (body : json) (key : string) : option json :=
  match body with
  | JObj fields => fields !! key
  | _ => None
  end.

(** Truthiness of a property value. *)
Definition truthy (v : option json) : bool :=
  match v with
  | None | Some JNull => false
  | Some (JBool b) => b
  | Some (JNum q) => negb (Qeq_bool q 0)
  | Some (JStr s) => negb (String.eqb s "")
  | Some (JInfinity _) | Some (JArr _) | Some (JObj _) => true
  end.

(** The object handed to [supabase.from("sensor_readings").insert]. *)
Record InsertData : Type := {
  device_id : json;
  moisture : number;
  temperature : number;
  light_lux : number;
  timestamp : Z
}.

(** [parseFloat(v) || 0]. *)
Definition numeric_field (v : option json) : option number :=
  or_zero <$> parseFloat v.

(** The [try] block of [POST] up to the insert, for the parsed [body] and
    the value [now] of [Date.now()]; [None] is an exception, answered by
    the [catch] block with status 500 and no insert. *)
Definition POST (body : json) (now : Z) : option InsertData :=
  match body with
  | JNull => None
  | _ =>
      let dev := if truthy (property body "device_id")
                 then default JNull (property body "device_id")
                 else JStr "ESP32_PlantGuard_01" in
      m ← numeric_field (property body "soil");
      t ← numeric_field (property body "temperature");
      l ← numeric_field (property body "light_lux");
      Some {| device_id := dev; moisture := m; temperature := t;
              light_lux := l; timestamp := now |}
  end.

End Ingest.

(** ** The trend in the words of the specification *)

Module Spec.

(** Arithmetic mean; of no value it is [0 / 0], which [Q] reads as [0]. *)
Definition mean (xs : list Q) : Q :=
  (sum xs / inject_Z (Z.of_nat (length xs)))%Q.

(** The last [min(10, n)] values. *)
Definition tail_window (vs : list Q) : list Q :=
  drop (length vs - Nat.min 10 (length vs)) vs.

(** The [min(10, n - 10)] values immediately before the tail window. *)
Definition preceding_window (vs : list Q) : list Q :=
  let n := length vs in
  let k := Nat.min 10 (n - 10) in
  take k (drop (n - Nat.min 10 n - k) vs).

(** "mean(last min(10, n) values) − mean(the preceding min(10, n-10)
    values); if the preceding window is empty, trend = 0". *)
Definition trend (vs : list Q) : Q :=
  match preceding_window vs with
  | [] => 0
  | old => mean (tail_window vs) - mean old
  end.

(** The same difference with an empty preceding window counted as a mean
    of [0] instead of cancelling the trend. *)
Definition windowed_trend (vs : list Q) : Q :=
  match preceding_window vs with
  | [] => mean (tail_window vs) - 0
  | old => mean (tail_window vs) - mean old
  end.

End Spec.

(** The three facts about one metric's trend [t] over its values [vs]. *)
Definition trend_law (vs : list Q) (t : number) : Prop :=
  t ≈ Fin (Spec.windowed_trend vs)
  ∧ ((10 < length vs)%nat → t ≈ Fin (Spec.trend vs))
  ∧ ((length vs ≤ 10)%nat → t ≈ Fin (Spec.mean vs)).

(** ** Scenario data *)

Definition sample (i : Z) (m : Q) : SensorReading :=
  {| id := i; device_id := "ESP32_PlantGuard_01"; moisture := m;
     temperature := 21; light_lux := 400; created_at := i |}.

(** Scenario A: moisture 50 at t = 0, moisture 30 at t = 1. *)
Definition scenario_A : list SensorReading := [sample 0 50; sample 1 30].

(** Scenario B: 20 readings with moisture values 1..20 in order. *)
Definition scenario_B : list SensorReading :=
  (λ i : nat, sample (Z.of_nat i) (inject_Z (Z.of_nat i))) <$> seq 1 20.

(** ** The buffer invariant of the specification *)

(** Sorted ascending by [created_at]. *)
Definition time_ordered (b : list SensorReading) : Prop :=
  StronglySorted (λ x y, created_at x ≤ created_at y) b.

(** No two entries with the same [id]. *)
Definition distinct_ids (b : list SensorReading) : Prop :=
  NoDup (id <$> b).

Definition buffer_invariant (b : list SensorReading) : Prop :=
  time_ordered b ∧ distinct_ids b.

(** The capacity named by the specification. *)
Definition cap : nat := 1000.

(** A run of live pushes, in order of arrival. *)
Definition pushes (st : Dashboard) (rs : list SensorReading) : Dashboard :=
  foldl (λ st r, on_insert r st) st rs.

(** A query result of [n] readings, one per millisecond. *)
Definition series (n : nat) : list SensorReading :=
  (λ i : nat, sample (Z.of_nat i) 45) <$> seq 0 n.

(** The reading [r] with another temperature. *)
Definition with_temperature (t : Q) (r : SensorReading) : SensorReading :=
  {| id := id r; device_id := device_id r; moisture := moisture r;
     temperature := t; light_lux := light_lux r; created_at := created_at r |}.

(** The dashboard showing [r] as its latest reading. *)
Definition showing (r : SensorReading) : Dashboard :=
  setLoading false (setLatest (Some r) initial_dashboard).

(** ** Scenario runs *)

(** The first fetch answers [rs_old]; then the range is switched to 1h and
    its fetch answers [rs_new]. *)
Definition window_change (rs_old rs_new : list SensorReading) : list Event :=
  [TimerFires; QueryCompletes 0 (succeeded rs_old);
   SelectRange R1h; TimerFires; QueryCompletes 0 (succeeded rs_new)].

(** [window_change] on the page: each handler is followed by a commit. *)
Definition window_change_page (rs_old rs_new : list SensorReading)
    : list Action :=
  [Handle TimerFires; Commit;
   Handle (QueryCompletes 0 (succeeded rs_old)); Commit;
   Handle (SelectRange R1h); Commit;
   Handle TimerFires; Commit;
   Handle (QueryCompletes 0 (succeeded rs_new)); Commit].

(** Scenario E on the page.  The first fetch (6h) and a change to 1h have
    completed and are on display.  The user selects 6h again; the timer
    callback calls [fetchData], which sets [loading] and issues the 6h
    query; before React commits the loading screen the user selects 24h,
    and the 24h query is issued with the 6h query in flight.  The 24h
    response ([fresh]) arrives first, the 6h response ([stale]) last. *)
Definition scenario_E_start (shown_first : list SensorReading) : list Action :=
  window_change_page shown_first shown_first
  ++ [Handle (SelectRange R6h); Commit; Handle TimerFires;
      Handle (SelectRange R24h); Handle TimerFires].

Definition scenario_E (shown_first stale fresh : list SensorReading)
    : list Action :=
  scenario_E_start shown_first
  ++ [Handle (QueryCompletes 1 (succeeded fresh)); Commit;
      Handle (QueryCompletes 0 (succeeded stale)); Commit].

(** The session of scenario E with both queries in flight, and the
    session at its end, for the 6h response [scenario_A] and the 24h
    response [scenario_B]. *)
Definition two_in_flight : Session :=
  (default (mounted, true)
     (acts (mounted, true) (scenario_E_start [sample 1 60; sample 2 61]))).1.

Definition after_scenario_E : Session :=
  (default (mounted, true)
     (acts (mounted, true)
        (scenario_E [sample 1 60; sample 2 61] scenario_A scenario_B))).1.

(** ** What the ingest route stores for one numeric field *)

(** The text of the bytes [l]. *)
Definition bytes (l : list nat) : string :=
  foldr (λ n s, String (ascii_of_nat n) s) EmptyString l.

(** The white space that [parseFloat] skips, in UTF-8: the WhiteSpace and
    LineTerminator characters of ECMAScript (TAB, LF, VT, FF, CR, SP,
    U+00A0, U+1680, U+2000 to U+200A, U+2028, U+2029, U+202F, U+205F,
    U+3000, U+FEFF). *)
Definition white_space : list string :=
  bytes <$> [ [9]; [10]; [11]; [12]; [13]; [32]; [194; 160];
              [225; 154; 128];
              [226; 128; 128]; [226; 128; 129]; [226; 128; 130];
              [226; 128; 131]; [226; 128; 132]; [226; 128; 133];
              [226; 128; 134]; [226; 128; 135]; [226; 128; 136];
              [226; 128; 137]; [226; 128; 138];
              [226; 128; 168]; [226; 128; 169]; [226; 128; 175];
              [226; 129; 159]; [227; 128; 128]; [239; 187; 191] ]%nat.

Definition starts_with_space (t : string) : bool :=
  existsb (λ w, String.prefix w t) white_space.

(** [trims s t]: [t] is [s] without its leading white space. *)
Inductive trims : string → string → Prop :=
  | trims_done t : starts_with_space t = false → trims t t
  | trims_skip w s t : w ∈ white_space → trims s t → trims (w +:+ s) t.

Inductive Sign : Type := NoSign | Plus | Minus.

Definition sign_text (sg : Sign) : string :=
  match sg with
  | NoSign => ""
  | Plus => "+"
  | Minus => "-"
  end.

(** The number [x] with the sign [sg] in front. *)
Definition with_sign (sg : Sign) (x : number) : number :=
  match sg, x with
  | Minus, Fin q => Fin (- q)
  | Minus, PosInf => NegInf
  | Minus, NegInf => PosInf
  | _, _ => x
  end.

Definition is_digit (c : ascii) : bool :=
  let n := nat_of_ascii c in ((48 <=? n) && (n <=? 57))%nat.

Definition starts_with_digit (t : string) : bool :=
  match t with
  | String c _ => is_digit c
  | EmptyString => false
  end.

(** The decimal digits [ds] as text, and the integer they write. *)
Definition numeral (ds : list nat) : string :=
  bytes ((λ d, 48 + d)%nat <$> ds).

Definition decimal (ds : list nat) : Z :=
  foldl (λ a d, 10 * a + Z.of_nat d) 0 ds.

(** Text that starts with an exponent part: [e] or [E], an optional sign
    and a digit. *)
Definition starts_with_exponent (t : string) : bool :=
  match t with
  | String c r =>
      (Ascii.eqb c "e" || Ascii.eqb c "E")
      && (starts_with_digit r
          || match r with
             | String d u =>
                 (Ascii.eqb d "+" || Ascii.eqb d "-") && starts_with_digit u
             | EmptyString => false
             end)
  | EmptyString => false
  end.

(** Trimmed text [t] with no numeric prefix: after an optional sign comes
    neither [Infinity], nor a digit, nor a dot followed by a digit. *)
Definition non_numeric (t : string) : bool :=
  let u := match t with
           | String c r =>
               if (Ascii.eqb c "+" || Ascii.eqb c "-")%bool then r else t
           | EmptyString => t
           end in
  negb (String.prefix "Infinity" u)
  && negb (starts_with_digit u)
  && negb match u with
          | String c r => Ascii.eqb c "." && starts_with_digit r
          | EmptyString => false
          end.

(** A decimal literal: sign, digits, an optional dot with digits, and an
    optional exponent part (upper-case [E]?, sign, digits). *)
Record Literal : Type := {
  sign : Sign;
  integer : list nat;
  fraction : option (list nat);
  exponent_part : option (bool * Sign * list nat)
}.

Definition fraction_digits (l : Literal) : list nat :=
  default [] (fraction l).

Definition fraction_text (f : option (list nat)) : string :=
  match f with
  | Some fp => "." +:+ numeral fp
  | None => ""
  end.

Definition exponent_text (e : option (bool * Sign * list nat)) : string :=
  match e with
  | Some (upper, sg, ds) =>
      (if upper : bool then "E" else "e") +:+ sign_text sg +:+ numeral ds
  | None => ""
  end.

Definition literal_text (l : Literal) : string :=
  sign_text (sign l) +:+ numeral (integer l)
  +:+ fraction_text (fraction l) +:+ exponent_text (exponent_part l).

(** Digits are below ten, there is a digit before the exponent, and an
    exponent part has a digit. *)
Definition well_formed (l : Literal) : Prop :=
  Forall (λ d, d < 10)%nat (integer l ++ fraction_digits l)
  ∧ integer l ++ fraction_digits l ≠ []
  ∧ ∀ upper sg ds, exponent_part l = Some (upper, sg, ds) →
      Forall (λ d, d < 10)%nat ds ∧ ds ≠ [].

(** The magnitude that the literal writes. *)
Definition magnitude (l : Literal) : Q :=
  let e := match exponent_part l with
           | Some (_, Minus, ds) => - decimal ds
           | Some (_, _, ds) => decimal ds
           | None => 0
           end in
  inject_Z (decimal (integer l ++ fraction_digits l))
  * Qpower 10 (e - Z.of_nat (length (fraction_digits l))).

(** Whether the text [rest] after the literal [l] would make the literal
    longer. *)
Definition continues (l : Literal) (rest : string) : bool :=
  starts_with_digit rest
  || match fraction l, exponent_part l, rest with
     | None, None, String c _ => Ascii.eqb c "."
     | _, _, _ => false
     end
  || match exponent_part l with
     | None => starts_with_exponent rest
     | Some _ => false
     end.

(** The number [x] stored for the submitted text [s]: [0] when the text,
    after its leading white space, has no numeric prefix; an infinity for
    [Infinity]; otherwise the double nearest to the longest decimal
    literal at its head, with the literal's sign, and never [-0] or NaN;
    when that literal writes an integer below [2 ^ 53], that integer. *)
Definition stored_for_text (s : string) (x : number) : Prop :=
  ∃ t, trims s t
    ∧ (non_numeric t = true → x = Fin 0)
    ∧ (∀ sg rest, t = sign_text sg +:+ "Infinity" +:+ rest →
         x = with_sign sg PosInf)
    ∧ (∀ l rest, t = literal_text l +:+ rest → well_formed l →
         continues l rest = false →
         x = or_zero (with_sign (sign l)
                        (Double.round_double (magnitude l)))
         ∧ ∀ z, (magnitude l == inject_Z z)%Q → z < 2 ^ 53 →
             x ≈ with_sign (sign l) (Fin (inject_Z z))).

(** The number [x] stored for the submitted value [v]: [0] for [null], a
    boolean, an object and an empty array; the number itself for a
    number; for an array what is stored for its first element. *)
Fixpoint stored_for (v : Ingest.json) (x : number) : Prop :=
  match v with
  | Ingest.JNull | Ingest.JBool _ | Ingest.JObj _ | Ingest.JArr [] =>
      x = Fin 0
  | Ingest.JNum q => x ≈ Fin q
  | Ingest.JInfinity negative => x = if negative then NegInf else PosInf
  | Ingest.JStr s => stored_for_text s x
  | Ingest.JArr (y :: _) => stored_for y x
  end.

(** The stored number [x] for the submitted property [v]: never NaN, and
    [0] for a missing property. *)
Definition ingested (v : option Ingest.json) (x : number) : Prop :=
  x ≠ NaN
  ∧ match v with
    | Some y => stored_for y x
    | None => x = Fin 0
    end.

(** A submission as the device sends it. *)
Definition submission : Ingest.json :=
  Ingest.JObj (<["device_id" := Ingest.JStr "ESP32_Balcony"]>
              (<["soil" := Ingest.JNum 42]>
              (<["temperature" := Ingest.JStr "21.5"]>
              (<["created_at" := Ingest.JNum 7]> ∅)))).

(** ** The stat cards *)

(** The [type] argument of [getStatusColor]. *)
Inductive MetricType : Type := Moisture | Temp | Light.

(** [value > limit]. *)
Definition exceeds (value limit : Q) : bool := JS.lt (Fin limit) (Fin value).

Definition getStatusColor (value : Q) (type : MetricType) : string :=
  match type with
  | Moisture =>
      if exceeds value 60 then "text-green-500"
      else if exceeds value 40 then "text-blue-500"
      else if exceeds value 20 then "text-orange-500"
      else "text-red-500"
  | Temp =>
      if exceeds value 28 then "text-red-500"
      else if exceeds value 22 then "text-green-500"
      else if exceeds value 15 then "text-blue-500"
      else "text-cyan-500"
  | Light =>
      if exceeds value 1000 then "text-yellow-500"
      else if exceeds value 500 then "text-orange-500"
      else if exceeds value 200 then "text-blue-500"
      else "text-gray-500"
  end.

(** The trend indicator of [StatCard]: [trend > 0] selects the icon (and,
    by the same test, the green or red text); a card without the [trend]
    prop shows none. *)
Inductive TrendIcon : Type := TrendingUp | TrendingDown.

Definition StatCard_trend (trend : option number) : option TrendIcon :=
  (λ t, if JS.lt (Fin 0) t then TrendingUp else TrendingDown) <$> trend.

(** ** Extremes and average of one metric *)

(** [lo] and [hi] bound every value and are values themselves. *)
Definition extremes (vs : list Q) (lo hi : Q) : Prop :=
  (∀ v, v ∈ vs → (lo <= v)%Q ∧ (v <= hi)%Q) ∧ lo ∈ vs ∧ hi ∈ vs.

(** The reported minimum and maximum are extremes of the values. *)
Definition reports_extremes (vs : list Q) (mn mx : number) : Prop :=
  ∃ lo hi, mn = Fin lo ∧ mx = Fin hi ∧ extremes vs lo hi.

(** ** Invariants of the displayed state *)

(** A non-empty buffer ends with the reading shown as latest. *)
Definition latest_is_last (st : Dashboard) : Prop :=
  data st = [] ∨ latest st = last (data st).

(** Something is pending that will take the loading screen down. *)
Definition fetch_pending (s : Session) : Prop :=
  inflight s ≠ [] ∨ timer s ≠ None.

(** ** The history route: [DELETE /api/sensor-data] *)

Module History.

(** The deletions asked of the store:
    [.delete().neq("id", z)] and [.delete().eq("device_id", d)]. *)
Inductive StoreCall : Type :=
  | delete_neq_id (z : Z)
  | delete_eq_device_id (d : string).

(** The JSON answer with its status: [{ success, message }] or
    [{ success, error }]. *)
Record Response : Type := {
  success : bool;
  message : option string;
  error : option string;
  status : nat
}.

Definition succeeded (text : string) : Response :=
  {| success := true; message := Some text; error := None; status := 200 |}.

Definition failed (code : nat) (text : string) : Response :=
  {| success := false; message := None; error := Some text; status := code |}.

(** [searchParams.get(name)] on the decoded query pairs: the first value
    under that name. *)
Fixpoint get (params : list (string * string)) (name : string)
    : option string :=
  match params with
  | [] => None
  | (k, v) :: rest => if String.eqb k name then Some v else get rest name
  end.

Section Errors.

(** The error objects of the store's client and [String(error)], the text
    the [catch] block answers with. *)
Context {Err : Type} (String_ : Err → string).

(** A deletion and the answer to it; the store replies [Some e] with its
    error object, or [None].  An error is thrown and answered by the
    [catch] block. *)
Definition deletion (call : StoreCall) (store : StoreCall → option Err)
    (done : string) : option StoreCall * Response :=
  match store call with
  | Some e => (Some call, failed 500 (String_ e))
  | None => (Some call, succeeded done)
  end.

(** [DELETE]: the deletion asked of the store, if any, and the answer. *)
Definition DELETE (params : list (string * string))
    (store : StoreCall → option Err) : option StoreCall * Response :=
  let action := get params "action" in
  if decide (action = Some "clear_all") then
    deletion (delete_neq_id 0) store "All history cleared"
  else if decide (action = Some "clear_device") then
    match get params "device_id" with
    | None | Some "" => (None, failed 400 "Device ID required")
    | Some deviceId =>
        deletion (delete_eq_device_id deviceId) store
          ("History cleared for " +:+ deviceId)
    end
  else (None, failed 400 "Invalid action").

End Errors.

(** The requests that name a deletion: [clear_all], or [clear_device]
    with a non-empty [device_id]; and the deletion each one names. *)
Definition names_deletion (params : list (string * string))
    (call : StoreCall) : Prop :=
  (get params "action" = Some "clear_all" ∧ call = delete_neq_id 0)
  ∨ (get params "action" = Some "clear_device"
     ∧ ∃ d, get params "device_id" = Some d ∧ d ≠ "" ∧
            call = delete_eq_device_id d).

End History.

(** [clearHistory] of the dashboard: the query of its DELETE request, and
    what it does with the parsed answer. *)
Definition clearHistory_query : list (string * string) :=
  [("action", "clear_all")].

Definition clearHistory_resume (result : History.Response) (st : Dashboard)
    : Dashboard :=
  if History.success result then history_cleared st else st.

(** ** Properties of the numeric layer *)

Section Numbers.

Lemma same_refl x : x ≈ x.
Proof. destruct x; simpl; auto with qarith. Qed.

Lemma same_trans x y z : x ≈ y → y ≈ z → x ≈ z.
Proof.
  destruct x, y, z; simpl; try tauto.
  intros H1 H2. by rewrite H1.
Qed.

Lemma or_zero_Fin q : or_zero (Fin q) ≈ Fin q.
Proof.
  simpl. destruct (Qeq_bool q 0) eqn:E; simpl; [|reflexivity].
  apply Qeq_bool_iff in E. by rewrite E.
Qed.

(** A guarded mean is always finite: the mean of the values, or [0] when
    there is none. *)
Lemma guarded_mean xs :
  ∃ q, or_zero (div_length (sum xs) (length xs)) = Fin q
       ∧ (q == match xs with [] => 0 | _ => Spec.mean xs end)%Q.
Proof.
  destruct xs as [|x xs].
  - exists 0%Q. split; reflexivity.
  - cbn [length div_length]. unfold Spec.mean. cbn [length].
    set (q := (sum (x :: xs) / inject_Z (Z.of_nat (S (length xs))))%Q).
    pose proof (or_zero_Fin q) as H. simpl in H |- *.
    destruct (Qeq_bool q 0); eauto.
Qed.

End Numbers.

(** ** Properties of [slice] *)

Section Slice.
Context {A : Type}.
Implicit Types l : list A.

(** [l.slice(-k)] keeps the last [k] elements. *)
Lemma slice_last (k : nat) l :
  (0 < k)%nat → slice (- Z.of_nat k) None l = drop (length l - k) l.
Proof.
  intros Hk. unfold slice, relative_index.
  destruct (Z.ltb_spec (- Z.of_nat k) 0) as [_|?]; [|lia].
  replace (Z.to_nat (Z.max (Z.of_nat (length l) + - Z.of_nat k) 0))
    with (length l - k)%nat by lia.
  apply take_ge. rewrite length_drop. lia.
Qed.

(** [l.slice(-(j + k), -k)] keeps the [min j (n - k)] elements before the
    last [k]. *)
Lemma slice_before_last (j k : nat) l :
  (0 < k)%nat →
  slice (- Z.of_nat (j + k)) (Some (- Z.of_nat k)) l
  = take (Nat.min j (length l - k)) (drop (length l - (j + k)) l).
Proof.
  intros Hk. unfold slice, relative_index.
  destruct (Z.ltb_spec (- Z.of_nat (j + k)) 0) as [_|?]; [|lia].
  destruct (Z.ltb_spec (- Z.of_nat k) 0) as [_|?]; [|lia].
  f_equal; [lia | f_equal; lia].
Qed.

End Slice.

(** ** Properties of the statistics *)

Section Statistics.
Implicit Types vs : list Q.

Lemma recent_is_tail_window vs : slice (-10) None vs = Spec.tail_window vs.
Proof.
  change (-10) with (- Z.of_nat 10). rewrite slice_last by lia.
  unfold Spec.tail_window. f_equal. lia.
Qed.

Lemma old_is_preceding_window vs :
  slice (-20) (Some (-10)) vs = Spec.preceding_window vs.
Proof.
  change (-20) with (- Z.of_nat (10 + 10)). change (-10) with (- Z.of_nat 10).
  rewrite slice_before_last by lia.
  unfold Spec.preceding_window. cbv zeta.
  destruct (decide (length vs ≤ 10)%nat) as [Hn|Hn].
  - replace (Nat.min 10 (length vs - 10)) with O by lia. by rewrite !take_0.
  - f_equal. f_equal. lia.
Qed.

Lemma mean_nil : (Spec.mean [] == 0)%Q.
Proof. reflexivity. Qed.

Lemma trend_windowed vs : trend vs ≈ Fin (Spec.windowed_trend vs).
Proof.
  unfold trend. cbv zeta.
  rewrite recent_is_tail_window, old_is_preceding_window.
  destruct (guarded_mean (Spec.tail_window vs)) as (q1 & -> & H1).
  destruct (guarded_mean (Spec.preceding_window vs)) as (q2 & -> & H2).
  assert (q1 == Spec.mean (Spec.tail_window vs))%Q as H1'.
  { destruct (Spec.tail_window vs); [by rewrite H1, mean_nil | done]. }
  unfold Spec.windowed_trend. simpl.
  destruct (Spec.preceding_window vs); by rewrite H1', H2.
Qed.

Lemma preceding_window_short vs :
  (length vs ≤ 10)%nat → Spec.preceding_window vs = [].
Proof.
  intros Hn. unfold Spec.preceding_window. cbv zeta.
  replace (Nat.min 10 (length vs - 10)) with O by lia. apply take_0.
Qed.

Lemma preceding_window_long vs :
  (10 < length vs)%nat → Spec.preceding_window vs ≠ [].
Proof.
  intros Hn Hnil. apply (f_equal length) in Hnil.
  unfold Spec.preceding_window in Hnil. cbv zeta in Hnil.
  rewrite length_take, length_drop in Hnil.
  change (length (@nil Q)) with O in Hnil. lia.
Qed.

Lemma tail_window_short vs : (length vs ≤ 10)%nat → Spec.tail_window vs = vs.
Proof.
  intros Hn. unfold Spec.tail_window.
  by replace (length vs - Nat.min 10 (length vs))%nat with O by lia.
Qed.

Lemma trend_obeys_law vs : trend_law vs (trend vs).
Proof.
  pose proof (trend_windowed vs) as Hw.
  split; [done|split]; intros Hn.
  - eapply same_trans; [exact Hw|].
    unfold Spec.windowed_trend, Spec.trend.
    pose proof (preceding_window_long vs Hn).
    destruct (Spec.preceding_window vs); [done|apply same_refl].
  - eapply same_trans; [exact Hw|].
    unfold Spec.windowed_trend.
    rewrite preceding_window_short, tail_window_short by done.
    simpl. ring.
Qed.

Lemma fmap_nonempty {A B} (f : A → B) (l : list A) :
  (2 ≤ length l)%nat → f <$> l ≠ [].
Proof. destruct l; simpl; [lia|done]. Qed.

Lemma calculateStats_Some readings :
  (2 ≤ length readings)%nat →
  calculateStats readings = Some {|
    moistureAvg := average (moisture <$> readings);
    moistureTrend := trend (moisture <$> readings);
    tempAvg := average (temperature <$> readings);
    tempTrend := trend (temperature <$> readings);
    lightAvg := average (light_lux <$> readings);
    lightTrend := trend (light_lux <$> readings);
    totalReadings := length readings;
    moistureMin := Math_min (moisture <$> readings);
    moistureMax := Math_max (moisture <$> readings);
    tempMin := Math_min (temperature <$> readings);
    tempMax := Math_max (temperature <$> readings);
    lightMin := Math_min (light_lux <$> readings);
    lightMax := Math_max (light_lux <$> readings) |}.
Proof.
  intros Hn. unfold calculateStats.
  destruct (Nat.ltb_spec (length readings) 2); [lia|done].
Qed.

Lemma calculateStats_None readings :
  (length readings < 2)%nat → calculateStats readings = None.
Proof.
  intros Hn. unfold calculateStats.
  destruct (Nat.ltb_spec (length readings) 2); [done|lia].
Qed.

End Statistics.

(** ** Properties of the live buffer *)

Section Buffer.
Implicit Types (b rs : list SensorReading) (r : SensorReading).
Implicit Types st : Dashboard.

(** The updater appends and keeps the last [cap] entries. *)
Lemma append_reading_drop r b :
  append_reading r b = drop (length b + 1 - cap) (b ++ [r]).
Proof.
  unfold append_reading. change (-1000) with (- Z.of_nat cap).
  rewrite slice_last by (unfold cap; lia).
  by rewrite length_app.
Qed.

Lemma length_append_reading r b :
  length (append_reading r b) = Nat.min cap (length b + 1).
Proof.
  rewrite append_reading_drop, length_drop, length_app. cbn [length]. lia.
Qed.

Lemma append_reading_below_cap r b :
  (length b < cap)%nat → append_reading r b = b ++ [r].
Proof.
  intros Hb. rewrite append_reading_drop.
  by replace (length b + 1 - cap)%nat with O by lia.
Qed.

Lemma data_on_insert r st : data (on_insert r st) = append_reading r (data st).
Proof. reflexivity. Qed.

Lemma pushes_snoc st rs r : pushes st (rs ++ [r]) = on_insert r (pushes st rs).
Proof. unfold pushes. by rewrite foldl_app. Qed.

(** After a non-empty run of pushes the buffer holds the last [cap]
    entries of the previous buffer followed by the pushed readings. *)
Lemma data_pushes st rs :
  rs ≠ [] →
  data (pushes st rs)
  = drop (length (data st) + length rs - cap) (data st ++ rs).
Proof.
  induction rs as [|r rs IH] using rev_ind; [done|]. intros _.
  rewrite pushes_snoc, data_on_insert, append_reading_drop.
  destruct (decide (rs = [])) as [->|Hne].
  - reflexivity.
  - rewrite IH by done. rewrite length_drop, !length_app. cbn [length].
    set (k := (length (data st) + length rs - cap)%nat).
    assert (k ≤ length (data st ++ rs))%nat as Hk
      by (rewrite length_app; lia).
    rewrite app_assoc, <- (drop_app_le _ [r]) by done.
    rewrite drop_drop. f_equal. lia.
Qed.

Lemma length_data_pushes st rs :
  rs ≠ [] →
  length (data (pushes st rs))
  = Nat.min cap (length (data st) + length rs).
Proof.
  intros Hne. rewrite data_pushes, length_drop, length_app by done. lia.
Qed.

Lemma time_ordered_drop n b : time_ordered b → time_ordered (drop n b).
Proof.
  unfold time_ordered. rewrite <- (take_drop n b) at 1.
  apply StronglySorted_app_1_r.
Qed.

Lemma distinct_ids_drop n b : distinct_ids b → distinct_ids (drop n b).
Proof.
  unfold distinct_ids. rewrite <- (take_drop n b) at 1.
  rewrite fmap_app, NoDup_app. tauto.
Qed.

Lemma buffer_invariant_drop n b :
  buffer_invariant b → buffer_invariant (drop n b).
Proof.
  intros [Hs Hd]. split; auto using time_ordered_drop, distinct_ids_drop.
Qed.

(** What is trimmed from a time-ordered buffer is no later than anything
    that is kept. *)
Lemma trimmed_not_later n b x y :
  time_ordered b → x ∈ take n b → y ∈ drop n b → created_at x ≤ created_at y.
Proof.
  unfold time_ordered. rewrite <- (take_drop n b) at 1. intros Hs Hx Hy.
  by eapply (StronglySorted_app_1_elem_of _ _ _ _ _ Hs).
Qed.

Lemma latest_on_insert r st : latest (on_insert r st) = Some r.
Proof. reflexivity. Qed.

Lemma length_series n : length (series n) = n.
Proof. unfold series. by rewrite length_fmap, length_seq. Qed.

Lemma time_ordered_series n : time_ordered (series n).
Proof.
  unfold time_ordered, series.
  apply (StronglySorted_fmap _ (λ i j : nat, (i ≤ j)%nat)).
  - intros i j Hij. simpl. lia.
  - generalize O. induction n as [|n IH]; intros k; simpl; constructor;
      [apply IH|].
    apply Forall_forall. intros j Hj. apply elem_of_seq in Hj. lia.
Qed.

End Buffer.

(** ** Properties of the session *)

Section Sessions.
Implicit Types (s : Session) (st : Dashboard) (e : Event).

Lemma timeRange_fetchData_resume res st :
  timeRange (fetchData_resume res st) = timeRange st.
Proof.
  unfold fetchData_resume, run_calculateStats.
  destruct (error res), (readings res) as [rs|]; simpl; try done.
  destruct (0 <? length rs)%nat; simpl; [|done].
  by destruct (calculateStats rs).
Qed.

(** A successful response replaces the buffer, whatever the state. *)
Lemma data_fetchData_resume rs st :
  data (fetchData_resume (succeeded rs) st) = rs.
Proof.
  unfold fetchData_resume, run_calculateStats. simpl.
  destruct (0 <? length rs)%nat; simpl; [|done].
  by destruct (calculateStats rs).
Qed.

Lemma latest_fetchData_resume rs st :
  rs ≠ [] → latest (fetchData_resume (succeeded rs) st) = last rs.
Proof.
  unfold fetchData_resume, run_calculateStats. simpl.
  destruct rs as [|r rs]; [done|]. intros _. simpl.
  by destruct (calculateStats (r :: rs)).
Qed.

Lemma act_rendering p a p' :
  rendering p.1 p.2 → act p a = Some p' → rendering p'.1 p'.2.
Proof.
  destruct p as [s shown], a as [e|]; simpl.
  - destruct (offered shown e) eqn:He; [|done]. intros H [= <-].
    by eapply rendering_handle.
  - intros H [= <-]. by eapply rendering_commit.
Qed.

(** A list of actions that runs through produces a reachable session. *)
Lemma acts_rendering l : ∀ p p',
  rendering p.1 p.2 → acts p l = Some p' → rendering p'.1 p'.2.
Proof.
  induction l as [|a l IH]; intros p p' H; simpl.
  - by intros [= <-].
  - destruct (act p a) as [p1|] eqn:Ha; [|done].
    apply IH. by eapply act_rendering.
Qed.

Lemma acts_reachable l s shown :
  acts (mounted, true) l = Some (s, shown) → reachable s.
Proof.
  intros H. exists shown.
  apply (acts_rendering l (mounted, true) (s, shown)); [constructor|done].
Qed.

End Sessions.

(** ** Properties of the ingest route *)

Section Ingestion.
Import Ingest.

(** *** White space *)

Lemma skip_space_white w s :
  w ∈ white_space → skip_space (w +:+ s) = skip_space s.
Proof.
  unfold white_space. intros H.
  repeat (apply elem_of_cons in H as [->|H]; [reflexivity|]).
  by apply elem_of_nil in H.
Qed.

Lemma append_cons x (a b : string) : String x a +:+ b = String x (a +:+ b).
Proof. reflexivity. Qed.

Lemma append_empty (b : string) : "" +:+ b = b.
Proof. reflexivity. Qed.

Lemma prefix_append w t : String.prefix w (w +:+ t) = true.
Proof.
  induction w as [|c w IH]; [by destruct t|].
  rewrite append_cons. cbn [String.prefix]. by destruct (ascii_dec c c).
Qed.

Lemma starts_with_space_intro w t :
  w ∈ white_space → starts_with_space (w +:+ t) = true.
Proof.
  intros Hw. apply existsb_exists. exists w.
  split; [by apply list_elem_of_In|apply prefix_append].
Qed.

Lemma skip_space_unfold c1 s1 :
  skip_space (String c1 s1)
  = let b1 := nat_of_ascii c1 in
    if ((9 <=? b1) && (b1 <=? 13) || (b1 =? 32))%nat then skip_space s1
    else
      match s1 with
      | String c2 s2 =>
          let b2 := nat_of_ascii c2 in
          if ((b1 =? 194) && (b2 =? 160))%nat then skip_space s2
          else
            match s2 with
            | String c3 s3 =>
                if is_space3 b1 b2 (nat_of_ascii c3) then skip_space s3
                else String c1 s1
            | EmptyString => String c1 s1
            end
      | EmptyString => String c1 s1
      end.
Proof. done. Qed.

Ltac to_props H :=
  repeat first
    [ rewrite orb_true_iff in H | rewrite andb_true_iff in H
    | rewrite Nat.eqb_eq in H | rewrite Nat.leb_le in H ].

Lemma white_space_1 c t :
  ((9 <=? nat_of_ascii c) && (nat_of_ascii c <=? 13)
   || (nat_of_ascii c =? 32))%nat = true →
  starts_with_space (String c t) = true.
Proof.
  intros E. rewrite <- (ascii_nat_embedding c).
  revert E. generalize (nat_of_ascii c). intros b E. to_props E.
  assert (b = 9 ∨ b = 10 ∨ b = 11 ∨ b = 12 ∨ b = 13 ∨ b = 32)%nat
    as Hb by lia.
  destruct Hb as [-> | [-> | [-> | [-> | [-> | ->]]]]];
    (apply (starts_with_space_intro (bytes [_]) t);
     apply (bool_decide_unpack _); vm_compute; exact I).
Qed.

Lemma white_space_2 c1 c2 t :
  ((nat_of_ascii c1 =? 194) && (nat_of_ascii c2 =? 160))%nat = true →
  starts_with_space (String c1 (String c2 t)) = true.
Proof.
  intros E. rewrite <- (ascii_nat_embedding c1), <- (ascii_nat_embedding c2).
  to_props E. destruct E as [-> ->].
  apply (starts_with_space_intro (bytes [_; _]) t).
  apply (bool_decide_unpack _); vm_compute; exact I.
Qed.

Lemma white_space_3 c1 c2 c3 t :
  is_space3 (nat_of_ascii c1) (nat_of_ascii c2) (nat_of_ascii c3) = true →
  starts_with_space (String c1 (String c2 (String c3 t))) = true.
Proof.
  intros E. rewrite <- (ascii_nat_embedding c1), <- (ascii_nat_embedding c2),
    <- (ascii_nat_embedding c3).
  revert E. unfold is_space3.
  generalize (nat_of_ascii c1) (nat_of_ascii c2) (nat_of_ascii c3).
  intros b1 b2 b3 E. to_props E.
  assert (b1 = 225 ∧ b2 = 154 ∧ b3 = 128
          ∨ b1 = 226 ∧ b2 = 128
            ∧ (b3 = 128 ∨ b3 = 129 ∨ b3 = 130 ∨ b3 = 131 ∨ b3 = 132
               ∨ b3 = 133 ∨ b3 = 134 ∨ b3 = 135 ∨ b3 = 136 ∨ b3 = 137
               ∨ b3 = 138 ∨ b3 = 168 ∨ b3 = 169 ∨ b3 = 175)
          ∨ b1 = 226 ∧ b2 = 129 ∧ b3 = 159
          ∨ b1 = 227 ∧ b2 = 128 ∧ b3 = 128
          ∨ b1 = 239 ∧ b2 = 187 ∧ b3 = 191)%nat as Hb by lia.
  clear E.
  destruct Hb as [(-> & -> & ->)|[(-> & -> & Hb)|[(-> & -> & ->)|
                 [(-> & -> & ->)|(-> & -> & ->)]]]];
    [|repeat (destruct Hb as [-> | Hb]); [..|subst b3]|..];
    (apply (starts_with_space_intro (bytes [_; _; _]) t);
     apply (bool_decide_unpack _); vm_compute; exact I).
Qed.

Lemma skip_space_fixed t : starts_with_space t = false → skip_space t = t.
Proof.
  destruct t as [|c1 t1]; [done|]. intros H.
  rewrite skip_space_unfold. cbv zeta.
  destruct ((9 <=? _)%nat && _ || _)%bool eqn:E1.
  { by rewrite (white_space_1 _ _ E1) in H. }
  destruct t1 as [|c2 t2]; [done|].
  destruct ((_ =? 194)%nat && _)%bool eqn:E2.
  { by rewrite (white_space_2 _ _ _ E2) in H. }
  destruct t2 as [|c3 t3]; [done|].
  destruct (is_space3 _ _ _) eqn:E3; [|done].
  by rewrite (white_space_3 _ _ _ _ E3) in H.
Qed.

Lemma prefix_split w : ∀ t,
  String.prefix w t = true → ∃ r, t = w +:+ r.
Proof.
  induction w as [|c w IH]; intros t H; [by exists t|].
  destruct t as [|c' t]; [done|]. cbn [String.prefix] in H.
  destruct (ascii_dec c c') as [<-|]; [|done].
  destruct (IH t H) as [r ->]. by exists r.
Qed.

Lemma append_length (a b : string) :
  String.length (a +:+ b) = (String.length a + String.length b)%nat.
Proof.
  induction a as [|x a IH]; [reflexivity|].
  rewrite append_cons. cbn [String.length]. by rewrite IH.
Qed.

Lemma white_space_length w : w ∈ white_space → (0 < String.length w)%nat.
Proof.
  unfold white_space. intros H.
  repeat (apply elem_of_cons in H as [->|H]; [cbn; lia|]).
  by apply elem_of_nil in H.
Qed.

(** Every text has its trimmed form, the one that [skip_space] computes. *)
Lemma skip_space_trims s : trims s (skip_space s).
Proof.
  remember (String.length s) as n eqn:Hn. revert s Hn.
  induction n as [n IH] using lt_wf_ind. intros s ->.
  destruct (starts_with_space s) eqn:Hs.
  - apply existsb_exists in Hs as (w & Hw & Hp).
    apply list_elem_of_In in Hw. apply prefix_split in Hp as [r ->].
    rewrite (skip_space_white _ _ Hw). apply trims_skip; [done|].
    apply (IH (String.length r)); [|done].
    rewrite append_length. pose proof (white_space_length w Hw). lia.
  - rewrite (skip_space_fixed _ Hs). by apply trims_done.
Qed.

Lemma trims_skip_space s t : trims s t → skip_space s = t.
Proof.
  induction 1 as [t H|w s t Hw _ IH].
  - by apply skip_space_fixed.
  - by rewrite skip_space_white.
Qed.

Lemma append_assoc (a b c : string) : (a +:+ b) +:+ c = a +:+ b +:+ c.
Proof.
  induction a as [|x a IH]; [reflexivity|].
  by rewrite !append_cons, IH.
Qed.

(** *** Digits and exponents *)

Lemma digit_value_digit d :
  (d < 10)%nat → digit_value (ascii_of_nat (48 + d)) = Some (Z.of_nat d).
Proof. intros H. do 10 (destruct d as [|d]; [reflexivity|]). lia. Qed.

Lemma is_digit_digit d : (d < 10)%nat → is_digit (ascii_of_nat (48 + d)) = true.
Proof. intros H. do 10 (destruct d as [|d]; [reflexivity|]). lia. Qed.

Lemma digit_value_no_digit c : is_digit c = false → digit_value c = None.
Proof.
  unfold is_digit, digit_value. generalize (nat_of_ascii c). intros n H.
  destruct (_ && _)%bool eqn:E in |- *; [|done].
  apply andb_true_iff in E as [E1 E2].
  apply Z.leb_le in E1. apply Z.leb_le in E2.
  apply andb_false_iff in H as [H|H]; apply Nat.leb_gt in H; lia.
Qed.

Lemma digits_no_digit acc t :
  starts_with_digit t = false → digits acc t = (acc, O, t).
Proof.
  destruct t as [|c t]; [done|]. simpl. intros H.
  by rewrite (digit_value_no_digit _ H).
Qed.

Lemma numeral_cons d ds rest :
  numeral (d :: ds) +:+ rest
  = String (ascii_of_nat (48 + d)) (numeral ds +:+ rest).
Proof. reflexivity. Qed.

Lemma digits_numeral ds : ∀ acc rest,
  Forall (λ d, d < 10)%nat ds → starts_with_digit rest = false →
  digits acc (numeral ds +:+ rest)
  = (foldl (λ a d, 10 * a + Z.of_nat d) acc ds, length ds, rest).
Proof.
  induction ds as [|d ds IH]; intros acc rest Hds Hrest.
  - by apply digits_no_digit.
  - apply Forall_cons in Hds as [Hd Hds].
    rewrite numeral_cons. cbn [digits].
    rewrite (digit_value_digit _ Hd), (IH _ _ Hds Hrest). reflexivity.
Qed.

Lemma digit_is_no_mark c :
  is_digit c = true →
  Ascii.eqb c "-" = false ∧ Ascii.eqb c "+" = false
  ∧ Ascii.eqb c "." = false ∧ c ≠ "I"%char.
Proof.
  intros H. repeat split;
    try (destruct (Ascii.eqb_spec c "-") as [->|]; [discriminate H|done]);
    try (destruct (Ascii.eqb_spec c "+") as [->|]; [discriminate H|done]);
    try (destruct (Ascii.eqb_spec c ".") as [->|]; [discriminate H|done]).
  intros ->. discriminate H.
Qed.

Lemma exponent_none rest : starts_with_exponent rest = false → exponent rest = 0.
Proof.
  unfold starts_with_exponent, exponent.
  destruct rest as [|c r]; [done|].
  destruct (Ascii.eqb c "e" || Ascii.eqb c "E")%bool; [|done].
  cbn [andb]. intros H. apply orb_false_iff in H as [H1 H2].
  destruct r as [|d u]; [done|].
  destruct (Ascii.eqb d "-") eqn:Em.
  { rewrite orb_true_r in H2. cbn [andb] in H2.
    by rewrite (digits_no_digit _ _ H2). }
  destruct (Ascii.eqb d "+") eqn:Ep.
  { cbn [orb andb] in H2. by rewrite (digits_no_digit _ _ H2). }
  by rewrite (digits_no_digit _ _ H1).
Qed.

Lemma exponent_written (upper : bool) sg ds rest :
  Forall (λ d, d < 10)%nat ds → ds ≠ [] → starts_with_digit rest = false →
  exponent (((if upper then "E" else "e") +:+ sign_text sg +:+ numeral ds)
            +:+ rest)
  = match sg with Minus => - decimal ds | _ => decimal ds end.
Proof.
  intros Hds Hne Hrest.
  pose proof (digits_numeral ds 0 rest Hds Hrest) as Hd.
  destruct ds as [|d ds]; [done|]. clear Hne.
  assert (is_digit (ascii_of_nat (48 + d)) = true) as Hdig.
  { apply is_digit_digit. by apply Forall_cons in Hds as [? _]. }
  destruct (digit_is_no_mark _ Hdig) as (Hm & Hp & _).
  rewrite !append_assoc.
  destruct upper, sg; cbn [sign_text];
    rewrite ?append_cons, ?append_empty; cbn [exponent Ascii.eqb orb
                                                Bool.eqb andb];
    rewrite ?numeral_cons, ?Hm, ?Hp, <- ?numeral_cons, Hd; reflexivity.
Qed.

(** *** The literal at the head of a text *)

Lemma prefix_Infinity_other c t :
  c ≠ "I"%char → String.prefix "Infinity" (String c t) = false.
Proof.
  intros Hc. cbn [String.prefix]. by destruct (ascii_dec "I" c) as [<-|].
Qed.

Lemma prefix_Infinity rest : String.prefix "Infinity" ("Infinity" +:+ rest) = true.
Proof. apply prefix_append. Qed.

Lemma negate_with_sign x : negate x = with_sign Minus x.
Proof. by destruct x. Qed.

Lemma literal_text_rest l rest :
  literal_text l +:+ rest
  = sign_text (sign l) +:+ numeral (integer l)
    +:+ fraction_text (fraction l) +:+ exponent_text (exponent_part l)
    +:+ rest.
Proof. unfold literal_text. by rewrite !append_assoc. Qed.

Lemma starts_with_digit_exponent_text e rest :
  starts_with_digit rest = false →
  starts_with_digit (exponent_text e +:+ rest) = false.
Proof. intros H. destruct e as [[[[] ?] ?]|]; [reflexivity..|exact H]. Qed.

Lemma unsigned_literal_written l rest :
  well_formed l → continues l rest = false →
  unsigned_literal (numeral (integer l) +:+ fraction_text (fraction l)
                    +:+ exponent_text (exponent_part l) +:+ rest)
  = Double.round_double (magnitude l).
Proof.
  destruct l as [sg ip fr ex]. unfold well_formed, continues, magnitude,
    fraction_digits. cbn [integer fraction exponent_part].
  intros (Hdigits & Hsome & Hexp) Hrest.
  apply orb_false_iff in Hrest as [Hrest Hrest_exp].
  apply orb_false_iff in Hrest as [Hrest_digit Hrest_dot].
  apply Forall_app in Hdigits as [Hip Hfp].
  pose proof (starts_with_digit_exponent_text ex rest Hrest_digit) as Hex_digit.
  assert (exponent (exponent_text ex +:+ rest)
          = match ex with
            | Some (_, Minus, ds) => - decimal ds
            | Some (_, _, ds) => decimal ds
            | None => 0
            end) as Hexponent.
  { destruct ex as [[[upper esg] ds]|].
    - destruct (Hexp _ _ _ eq_refl) as [Hds Hne].
      unfold exponent_text.
      rewrite (exponent_written upper esg ds rest Hds Hne Hrest_digit).
      by destruct esg.
    - by apply exponent_none. }
  unfold unsigned_literal.
  assert (String.prefix "Infinity"
            (numeral ip +:+ fraction_text fr +:+ exponent_text ex +:+ rest)
          = false) as ->.
  { destruct ip as [|d ip].
    - destruct fr as [fp|]; [|done]. by apply prefix_Infinity_other.
    - rewrite numeral_cons. apply prefix_Infinity_other.
      apply Forall_cons in Hip as [Hd _].
      by apply digit_is_no_mark, is_digit_digit. }
  destruct fr as [fp|]; cbn [fraction_text] in *.
  - change (default [] (Some fp)) with fp in *.
    rewrite (digits_numeral ip 0 _ Hip) by done.
    rewrite append_assoc, append_cons, append_empty. cbn [Ascii.eqb Bool.eqb].
    rewrite (digits_numeral fp _ _ Hfp Hex_digit).
    rewrite <- foldl_app, Hexponent.
    destruct (length ip + length fp)%nat eqn:Hlen; [|done].
    rewrite <- length_app in Hlen. by apply nil_length_inv in Hlen.
  - change (default [] None) with (@nil nat) in *.
    rewrite append_empty, app_nil_r in *.
    rewrite (digits_numeral ip 0 _ Hip Hex_digit).
    assert (match exponent_text ex +:+ rest with
            | String c t =>
                if Ascii.eqb c "." then digits (foldl (λ a d, 10 * a + Z.of_nat d) 0 ip) t
                else (foldl (λ a d, 10 * a + Z.of_nat d) 0 ip, O,
                      exponent_text ex +:+ rest)
            | EmptyString => (foldl (λ a d, 10 * a + Z.of_nat d) 0 ip, O,
                              exponent_text ex +:+ rest)
            end
            = (foldl (λ a d, 10 * a + Z.of_nat d) 0 ip, O,
               exponent_text ex +:+ rest)) as ->.
    { destruct ex as [[[[] ?] ?]|]; [done..|].
      rewrite append_empty. destruct rest as [|c t]; [done|].
      by rewrite Hrest_dot. }
    rewrite Hexponent, Nat.add_0_r.
    destruct (length ip) eqn:Hlen; [|done].
    by apply nil_length_inv in Hlen.
Qed.

(** The parser at work: white space outside ASCII is skipped, the sign is
    kept, the value is rounded to a double, a literal beyond the range is
    infinite, and the text after the literal is ignored. *)
Lemma parseFloat_string_examples :
  parseFloat_string (bytes [194; 160]%nat +:+ "12") ≈ Fin 12
  ∧ parseFloat_string "-5" ≈ Fin (-5)
  ∧ parseFloat_string "0.1" ≈ Fin (3602879701896397 # 36028797018963968)
  ∧ parseFloat_string "1e999" = PosInf
  ∧ parseFloat_string "12abc" ≈ Fin 12
  ∧ parseFloat_string "-abc" = NaN.
Proof.
  do 5 (split; [vm_compute; reflexivity|]). vm_compute. reflexivity.
Qed.

(** *** Rounding *)

Lemma round_double_Qeq p q :
  (p == q)%Q → Double.round_double p = Double.round_double q.
Proof. intros H. unfold Double.round_double. by rewrite (Qred_complete _ _ H). Qed.

Lemma scale_back (a k : Z) :
  0 ≤ k → (inject_Z (a * 2 ^ k) * Qpower 2 (- k) == inject_Z a)%Q.
Proof.
  intros Hk. rewrite inject_Z_mult, Zpower_Qpower, Qpower_opp by done.
  assert (¬ (inject_Z 2 ^ k == 0)%Q) as Hne.
  { apply Qpower_not_0. done. }
  change (inject_Z 2) with 2%Q in *. field. exact Hne.
Qed.

(** An integer below [2 ^ 53] in magnitude is a double. *)
Lemma round_double_integer z :
  Z.abs z < 2 ^ 53 → Double.round_double (inject_Z z) ≈ Fin (inject_Z z).
Proof.
  intros Hz. unfold Double.round_double.
  rewrite Qcanon.Qred_identity by apply Z.gcd_1_r.
  cbn [Qnum Qden inject_Z].
  destruct (Z.eqb_spec (Z.abs z) 0) as [H0|H0].
  { assert (z = 0) as -> by lia. reflexivity. }
  set (n := Z.abs z) in *.
  assert (0 < n) as Hn by lia.
  pose proof (Z.log2_nonneg n) as HL0.
  pose proof (Z.log2_spec n Hn) as [HL1 HL2].
  assert (Z.log2 n < 53) as HL53.
  { apply Z.log2_lt_pow2; lia. }
  assert (Double.binade n 1 = Z.log2 n) as ->.
  { unfold Double.binade, Double.scaled. change (Z.log2 1) with 0.
    rewrite Z.sub_0_r. destruct (Z.leb_spec 0 (Z.log2 n)) as [_|]; [|lia].
    destruct (Z.leb_spec (1 * 2 ^ Z.log2 n) n) as [_|]; [done|lia]. }
  set (k := 52 - Z.log2 n).
  assert (0 ≤ k) as Hk by lia.
  assert (Z.max (Z.log2 n - 52) (-1074) = - k) as -> by lia.
  assert (Double.scaled n 1 (- k) = (n * 2 ^ k, 1)) as ->.
  { unfold Double.scaled. destruct (Z.leb_spec 0 (- k)) as [Hk0|Hk0].
    - assert (k = 0) as -> by lia. f_equal. lia.
    - by rewrite Z.opp_involutive. }
  assert (Double.round_half_even (n * 2 ^ k) 1 = n * 2 ^ k) as ->.
  { unfold Double.round_half_even. by rewrite Z.mod_1_r, Z.div_1_r. }
  assert (0 < 2 ^ k) as Hpow by (apply Z.pow_pos_nonneg; lia).
  destruct (Z.eqb_spec (n * 2 ^ k) 0) as [Hm|_]; [nia|].
  rewrite Z.log2_mul_pow2 by lia.
  destruct (Z.leb_spec 1024 (k + Z.log2 n + - k)) as [|_]; [lia|].
  cbn [same]. rewrite Z.mul_assoc, scale_back by done.
  unfold n. by rewrite Z.mul_comm, Z.abs_sgn.
Qed.

Lemma magnitude_nonnegative l : (0 <= magnitude l)%Q.
Proof.
  unfold magnitude. apply Qmult_le_0_compat.
  - change 0%Q with (inject_Z 0). rewrite <- Zle_Qle. unfold decimal.
    generalize (integer l ++ fraction_digits l). intros ds.
    assert (∀ acc, 0 ≤ acc →
              0 ≤ foldl (λ a d, 10 * a + Z.of_nat d) acc ds) as H.
    { induction ds as [|d ds IH]; intros acc Hacc; [done|].
      cbn [foldl]. apply IH. lia. }
    by apply H.
  - by apply Qpower_0_le.
Qed.

Lemma or_zero_with_sign sg x z :
  x ≈ Fin (inject_Z z) →
  or_zero (with_sign sg x) ≈ with_sign sg (Fin (inject_Z z)).
Proof.
  destruct x as [r| | |]; try done. cbn [same]. intros Hr.
  assert (∀ a b, (a == b)%Q → or_zero (Fin a) ≈ Fin b) as Hz.
  { intros a b Hab. cbn [or_zero]. destruct (Qeq_bool a 0) eqn:E; [|done].
    apply Qeq_bool_iff in E. cbn [same]. by rewrite <- Hab, E. }
  destruct sg; cbn [with_sign]; apply Hz; by rewrite Hr.
Qed.

(** *** What is stored *)

Lemma or_zero_not_NaN x : or_zero x ≠ NaN.
Proof. destruct x as [q| | |]; simpl; [destruct (Qeq_bool q 0)|..]; done. Qed.

Lemma unsigned_literal_none u :
  String.prefix "Infinity" u = false → starts_with_digit u = false →
  match u with
  | String c r => Ascii.eqb c "." && starts_with_digit r
  | EmptyString => false
  end = false →
  unsigned_literal u = NaN.
Proof.
  intros Hinf Hdigit Hdot. unfold unsigned_literal.
  rewrite Hinf, (digits_no_digit _ _ Hdigit).
  destruct u as [|c r]; [done|].
  destruct (Ascii.eqb c "."); [|done].
  by rewrite (digits_no_digit _ _ Hdot).
Qed.

Lemma parseFloat_string_non_numeric s t :
  skip_space s = t → non_numeric t = true → parseFloat_string s = NaN.
Proof.
  unfold parseFloat_string, non_numeric. intros -> H.
  destruct t as [|c r]; [done|].
  apply andb_true_iff in H as [H Hdot].
  apply andb_true_iff in H as [Hinf Hdigit].
  apply negb_true_iff in Hdot, Hinf, Hdigit.
  destruct (Ascii.eqb_spec c "+") as [->|Hplus].
  { cbn [orb Ascii.eqb Bool.eqb] in *. by apply unsigned_literal_none. }
  destruct (Ascii.eqb_spec c "-") as [->|Hminus].
  { cbn [orb Ascii.eqb Bool.eqb] in *.
    by rewrite unsigned_literal_none. }
  cbn [orb] in *. by apply unsigned_literal_none.
Qed.

Lemma parseFloat_string_Infinity s sg rest :
  skip_space s = sign_text sg +:+ "Infinity" +:+ rest →
  parseFloat_string s = with_sign sg PosInf.
Proof.
  unfold parseFloat_string. intros ->.
  assert (unsigned_literal ("Infinity" +:+ rest) = PosInf) as Hinf.
  { unfold unsigned_literal. by rewrite prefix_Infinity. }
  destruct sg.
  - change (sign_text NoSign +:+ "Infinity" +:+ rest)
      with (String "I" ("nfinity" +:+ rest)).
    cbn [Ascii.eqb Bool.eqb]. exact Hinf.
  - change (sign_text Plus +:+ "Infinity" +:+ rest)
      with (String "+" ("Infinity" +:+ rest)).
    cbn [Ascii.eqb Bool.eqb]. exact Hinf.
  - change (sign_text Minus +:+ "Infinity" +:+ rest)
      with (String "-" ("Infinity" +:+ rest)).
    cbn [Ascii.eqb Bool.eqb]. by rewrite Hinf.
Qed.

Lemma written_head l rest :
  well_formed l →
  ∃ c t, numeral (integer l) +:+ fraction_text (fraction l)
         +:+ exponent_text (exponent_part l) +:+ rest = String c t
         ∧ Ascii.eqb c "-" = false ∧ Ascii.eqb c "+" = false.
Proof.
  destruct l as [sg [|d ip] fr ex]; intros (Hd & Hne & _);
    cbn [integer fraction exponent_part] in *.
  - destruct fr as [fp|]; [|done]. by eexists _, _.
  - apply Forall_cons in Hd as [Hd _].
    destruct (digit_is_no_mark _ (is_digit_digit d Hd)) as (? & ? & _).
    exists (ascii_of_nat (48 + d)). by eexists.
Qed.

Lemma parseFloat_string_written s l rest :
  skip_space s = literal_text l +:+ rest →
  well_formed l → continues l rest = false →
  parseFloat_string s
  = with_sign (sign l) (Double.round_double (magnitude l)).
Proof.
  unfold parseFloat_string. intros -> Hl Hrest.
  rewrite literal_text_rest.
  pose proof (unsigned_literal_written l rest Hl Hrest) as Hu.
  destruct (written_head l rest Hl) as (c & t & Htext & Hm & Hp).
  destruct (sign l); cbn [sign_text];
    rewrite ?append_cons, ?append_empty; cbn [Ascii.eqb Bool.eqb].
  - rewrite Htext in Hu |- *. by rewrite Hm, Hp.
  - done.
  - by rewrite Hu, negate_with_sign.
Qed.

Lemma stored_for_text_parseFloat s :
  stored_for_text s (or_zero (parseFloat_string s)).
Proof.
  exists (skip_space s). split; [apply skip_space_trims|].
  set (t := skip_space s). assert (skip_space s = t) as Ht by done.
  clearbody t. split; [|split].
  - intros H. by rewrite (parseFloat_string_non_numeric s t).
  - intros sg rest ->. rewrite (parseFloat_string_Infinity s sg rest Ht).
    by destruct sg.
  - intros l rest -> Hl Hrest.
    rewrite (parseFloat_string_written s l rest) by done.
    split; [done|]. intros z Hmag Hz.
    apply or_zero_with_sign. rewrite (round_double_Qeq _ _ Hmag).
    apply round_double_integer.
    pose proof (magnitude_nonnegative l) as H0. rewrite Hmag in H0.
    change 0%Q with (inject_Z 0) in H0. rewrite <- Zle_Qle in H0. lia.
Qed.

Lemma stored_for_parseFloat_value :
  ∀ y, stringifies y = true → stored_for y (or_zero (parseFloat_value y)).
Proof.
  fix IH 1. intros [|b|q|negative|s|[|x xs]|fields] Hy;
    cbn [stored_for parseFloat_value]; try done.
  - apply or_zero_Fin.
  - by destruct negative.
  - apply stored_for_text_parseFloat.
  - apply IH. cbn [stringifies forallb] in Hy.
    by apply andb_true_iff in Hy as [? _].
Qed.

Lemma numeric_field_ingested v x : numeric_field v = Some x → ingested v x.
Proof.
  unfold numeric_field, parseFloat. intros H.
  destruct v as [y|]; [destruct (stringifies y) eqn:Hy|]; simplify_eq/=.
  - split; [apply or_zero_not_NaN|by apply stored_for_parseFloat_value].
  - done.
Qed.

Lemma numeric_field_is_Some v :
  default true (stringifies <$> v) = true → is_Some (numeric_field v).
Proof.
  unfold numeric_field, parseFloat. destruct v as [y|]; simpl; [|by eexists].
  intros ->. by eexists.
Qed.

(** A row is built for every body other than [null] whose three metric
    properties, where present, have a primitive value. *)
Lemma POST_inserts body now :
  body ≠ JNull →
  (∀ key y, property body key = Some y → stringifies y = true) →
  is_Some (POST body now).
Proof.
  intros Hbody Hprim.
  assert (∀ key, is_Some (numeric_field (property body key))) as Hfield.
  { intros key. apply numeric_field_is_Some.
    destruct (property body key) as [y|] eqn:Hy; simpl; eauto. }
  destruct (Hfield "soil"%string) as [m Hm].
  destruct (Hfield "temperature"%string) as [t Ht].
  destruct (Hfield "light_lux"%string) as [l Hl].
  unfold POST. destruct body; try done; rewrite Hm, Ht, Hl; by eexists.
Qed.

End Ingestion.

(** ** The trend of [calculateStats] *)

(** C1, as stated, fails on scenario A: the two-point series
    [{moisture:50,t=0},{moisture:30,t=1}] has an empty preceding window,
    for which the specification's trend is 0, while [calculateStats]
    reports a moisture trend of 40 (the mean of the two values, minus the
    0 that stands in for the mean of the empty window). *)
Lemma two_point_trend_is_not_zero :
  ∃ s, calculateStats scenario_A = Some s
       ∧ Spec.preceding_window (moisture <$> scenario_A) = []
       ∧ Fin (Spec.trend (moisture <$> scenario_A)) ≈ Fin 0
       ∧ moistureTrend s ≈ Fin 40
       ∧ ¬ moistureTrend s ≈ Fin 0.
Proof.
  eexists. split; [reflexivity|]. split; [reflexivity|].
  split; [reflexivity|]. split; [reflexivity|].
  intros H. vm_compute in H. discriminate H.
Qed.

(** C1, amended: for every series of at least 2 readings and for each
    metric (moisture, temperature, light), the trend set by
    [calculateStats] equals mean(last min(10, n) values) minus
    mean(the min(10, n-10) values immediately before that tail window),
    where the mean of an empty preceding window counts as 0: for n > 10 it
    is the specification's trend, and for n <= 10 it is the mean of the
    metric over the series. *)
Theorem calculateStats_trend_windows readings :
  (2 ≤ length readings)%nat →
  ∃ s, calculateStats readings = Some s
       ∧ trend_law (moisture <$> readings) (moistureTrend s)
       ∧ trend_law (temperature <$> readings) (tempTrend s)
       ∧ trend_law (light_lux <$> readings) (lightTrend s).
Proof.
  intros Hn. eexists. split; [by apply calculateStats_Some|].
  cbn [moistureTrend tempTrend lightTrend].
  auto using trend_obeys_law.
Qed.

(** Scenario B: for 20 readings with moisture values 1..20 in order the
    moisture trend is 10. *)
Lemma calculateStats_trend_scenario_B :
  ∃ s, calculateStats scenario_B = Some s ∧ moistureTrend s ≈ Fin 10.
Proof.
  destruct (calculateStats_trend_windows scenario_B) as (s & Hs & Hm & _).
  { vm_compute. lia. }
  exists s. split; [exact Hs|].
  destruct Hm as (_ & Hlong & _).
  eapply same_trans; [apply Hlong; vm_compute; lia|].
  reflexivity.
Defined.

(** ** Short series *)

(** C4, as stated, fails: for a series with fewer than 2 readings
    [calculateStats] executes a bare [return]; there is no result, explicit
    or otherwise.  After the one-reading series below the statistics on
    display are those of the two readings fetched before (count 2), and
    after the same series at mount they are the initial zeros: what is
    shown for the input depends on what was shown before. *)
Lemma short_series_gives_no_result :
  let shown := fetchData_resume (succeeded scenario_A) initial_dashboard in
  let one := [sample 9 70] in
  run_calculateStats one shown = shown
  ∧ Some (stats (run_calculateStats one shown)) = calculateStats scenario_A
  ∧ totalReadings (stats (run_calculateStats one shown)) = 2%nat
  ∧ stats (run_calculateStats one initial_dashboard) = initial_stats
  ∧ stats (run_calculateStats one shown)
    ≠ stats (run_calculateStats one initial_dashboard).
Proof.
  cbv zeta. repeat split; try reflexivity.
  intros H. apply (f_equal totalReadings) in H. discriminate H.
Qed.

(** C4, amended: for every series with fewer than 2 readings
    [calculateStats] returns early: nothing is raised, [setStats] is not
    called, and the statistics stay as they were, whatever they were.  For
    every series with at least 2 readings it calls [setStats] with a record
    whose count is the number of readings. *)
Theorem calculateStats_short_series_is_skipped readings :
  ((length readings < 2)%nat → ∀ st, run_calculateStats readings st = st)
  ∧ ((2 ≤ length readings)%nat →
     ∃ s, totalReadings s = length readings
          ∧ ∀ st, run_calculateStats readings st = setStats s st).
Proof.
  split; intros Hn.
  - intros st. unfold run_calculateStats.
    by rewrite calculateStats_None.
  - eexists. split; [|intros st; unfold run_calculateStats;
                      by rewrite calculateStats_Some].
    reflexivity.
Qed.

Lemma calculateStats_short_series_is_skipped_witness :
  run_calculateStats [sample 9 70] (showing (sample 1 30))
  = showing (sample 1 30)
  ∧ ∃ s, totalReadings s = 2%nat
         ∧ ∀ st, run_calculateStats scenario_A st = setStats s st.
Proof.
  split.
  - apply (proj1 (calculateStats_short_series_is_skipped [sample 9 70])).
    simpl. lia.
  - apply (proj2 (calculateStats_short_series_is_skipped scenario_A)).
    simpl. lia.
Defined.

(** ** The realtime handler and the buffer invariant *)

(** [buffer_invariant] of a concrete buffer. *)
Ltac concrete_invariant :=
  split;
  [ unfold time_ordered; repeat constructor; simpl; lia
  | unfold distinct_ids; apply (bool_decide_unpack _); vm_compute; exact I ].

(** C2, as stated, fails: the handler neither looks for the id nor for the
    sorted position.  Pushing a reading that is already in the buffer
    stores it a second time, and pushing a reading older than the tail
    leaves it after the tail. *)
Lemma append_breaks_buffer_invariant :
  let st := setData [sample 5 40] initial_dashboard in
  buffer_invariant (data st)
  ∧ data (on_insert (sample 5 40) st) = [sample 5 40; sample 5 40]
  ∧ ¬ distinct_ids (data (on_insert (sample 5 40) st))
  ∧ data (on_insert (sample 3 41) st) = [sample 5 40; sample 3 41]
  ∧ ¬ time_ordered (data (on_insert (sample 3 41) st)).
Proof.
  simpl. split; [concrete_invariant|].
  split; [reflexivity|]. split.
  - unfold distinct_ids. intros H. vm_compute in H.
    apply NoDup_cons in H as [H _]. set_solver.
  - split; [reflexivity|]. unfold time_ordered. intros H. vm_compute in H.
    apply StronglySorted_cons in H as [H _].
    apply Forall_cons in H as [H _]. by apply H.
Qed.

(** C2, amended: the realtime handler appends every pushed reading at the
    tail and keeps the last 1000 entries, without a duplicate check and
    without sorted insertion.  For every sequence of live pushes in which
    the buffer followed by the pushed readings is sorted ascending by
    createdAt and has no two entries with the same id (each reading is no
    older than the tail and carries a new id), the buffer remains sorted
    ascending by createdAt and free of duplicate ids. *)
Theorem pushes_keep_invariant_of_arrivals st rs :
  buffer_invariant (data st ++ rs) →
  buffer_invariant (data (pushes st rs))
  ∧ (rs ≠ [] →
     data (pushes st rs)
     = drop (length (data st) + length rs - cap) (data st ++ rs)).
Proof.
  intros Hinv. split; [|apply data_pushes].
  destruct (decide (rs = [])) as [->|Hne].
  - by rewrite app_nil_r in Hinv.
  - rewrite data_pushes by done. by apply buffer_invariant_drop.
Qed.

Lemma pushes_keep_invariant_of_arrivals_witness :
  let st := setData [sample 1 40; sample 2 41] initial_dashboard in
  let rs := [sample 3 42; sample 4 43] in
  buffer_invariant (data (pushes st rs))
  ∧ data (pushes st rs) = data st ++ rs.
Proof.
  intros st rs.
  destruct (pushes_keep_invariant_of_arrivals st rs) as [H1 H2].
  { simpl. concrete_invariant. }
  split; [exact H1|]. rewrite H2 by done. reflexivity.
Defined.

(** ** Capacity *)

(** C5, as stated, fails.  A buffer at capacity holds the readings of
    times 1..1000; a live push of a reading of time 0 evicts the reading of
    time 1 and keeps the older one: what is retained is the last 1000
    entries in order of arrival, not the most recent 1000 by createdAt.
    And a query result of 1001 readings is stored whole, so the buffer
    exceeds the capacity after seeding. *)
Lemma capacity_keeps_arrivals_not_most_recent :
  let full := setData (drop 1 (series 1001)) initial_dashboard in
  let pushed := on_insert (sample 0 45) full in
  let seeded := fetchData_resume (succeeded (series 1001)) initial_dashboard in
  length (data full) = cap
  ∧ time_ordered (data full)
  ∧ length (data pushed) = cap
  ∧ 0 ∈ (created_at <$> data pushed)
  ∧ (1 ∉ (created_at <$> data pushed))
  ∧ length (data seeded) = 1001%nat.
Proof.
  cbv zeta. split; [by vm_compute|]. split.
  { apply time_ordered_drop, time_ordered_series. }
  split; [by vm_compute|].
  split; [apply (bool_decide_unpack _); by vm_compute|].
  split; [apply (bool_decide_unpack _); by vm_compute|].
  by rewrite data_fetchData_resume, length_series.
Qed.

(** C5, amended: after every non-empty sequence of live pushes the buffer
    does not exceed capacity 1000: it holds the last min(1000, n + k)
    entries of the previous buffer (of length n) followed by the k pushed
    readings in order of arrival, so its length is exactly 1000 as soon as
    n + k reaches 1000; when that sequence is sorted by createdAt, every
    trimmed entry is no later than every retained one, so the retained
    entries are the most recent by createdAt. *)
Theorem pushes_bound_buffer st rs :
  rs ≠ [] →
  let kept := data (pushes st rs) in
  let trimmed := take (length (data st) + length rs - cap) (data st ++ rs) in
  length kept = Nat.min cap (length (data st) + length rs)
  ∧ (length kept ≤ cap)%nat
  ∧ trimmed ++ kept = data st ++ rs
  ∧ (time_ordered (data st ++ rs) →
     ∀ x y, x ∈ trimmed → y ∈ kept → created_at x ≤ created_at y).
Proof.
  intros Hne kept trimmed. subst kept trimmed.
  pose proof (length_data_pushes st rs Hne) as Hlen.
  split; [done|]. split; [lia|].
  rewrite data_pushes by done.
  split; [apply take_drop|].
  intros Hs x y Hx Hy. by eapply trimmed_not_later.
Qed.

Lemma pushes_bound_buffer_witness :
  let st := fetchData_resume (succeeded (series 1001)) initial_dashboard in
  length (data (pushes st [sample 2000 50])) = 1000%nat.
Proof.
  intros st.
  destruct (pushes_bound_buffer st [sample 2000 50]) as (H & _); [done|].
  exact H.
Defined.

(** ** Repeated pushes *)

(** C6, as stated, fails: pushing the same reading twice leaves two copies
    of it, pushing it once leaves one. *)
Lemma merging_twice_differs_from_once :
  let once := on_insert (sample 1 40) initial_dashboard in
  let twice := on_insert (sample 1 40) once in
  data once = [sample 1 40]
  ∧ data twice = [sample 1 40; sample 1 40]
  ∧ twice ≠ once.
Proof.
  simpl. split; [reflexivity|]. split; [reflexivity|].
  intros H. apply (f_equal (λ st, length (data st))) in H. discriminate H.
Qed.

(** C6, amended: merging is not idempotent.  Merging the same Reading
    twice stores it twice: the buffer becomes the last 1000 entries of the
    previous buffer followed by two copies of the Reading, so with at most
    998 entries before, the twice-merged buffer is the once-merged buffer
    with the Reading appended again, one entry longer. *)
Theorem merging_twice_appends_twice st r :
  (length (data st) + 2 ≤ cap)%nat →
  data (on_insert r (on_insert r st))
  = drop (length (data st) + 2 - cap) (data st ++ [r; r])
  ∧ data (on_insert r (on_insert r st)) = data (on_insert r st) ++ [r]
  ∧ length (data (on_insert r (on_insert r st)))
    = S (length (data (on_insert r st)))
  ∧ on_insert r (on_insert r st) ≠ on_insert r st.
Proof.
  intros Hcap.
  assert (data (on_insert r st) = data st ++ [r]) as H1.
  { rewrite data_on_insert. apply append_reading_below_cap. lia. }
  assert (data (on_insert r (on_insert r st)) = data (on_insert r st) ++ [r])
    as H2.
  { rewrite (data_on_insert r (on_insert r st)).
    apply append_reading_below_cap. rewrite H1, length_app. simpl. lia. }
  split; [|split; [done|split]].
  - apply (data_pushes st [r; r]). done.
  - rewrite H2, length_app. simpl. lia.
  - intros H. apply (f_equal (λ st, length (data st))) in H.
    rewrite H2, length_app in H. simpl in H. lia.
Qed.

Lemma merging_twice_appends_twice_witness :
  let st := setData [sample 1 40] initial_dashboard in
  data (on_insert (sample 2 41) (on_insert (sample 2 41) st))
  = [sample 1 40; sample 2 41; sample 2 41].
Proof.
  intros st.
  destruct (merging_twice_appends_twice st (sample 2 41)) as (_ & H & _).
  { unfold cap. simpl. lia. }
  exact H.
Defined.

(** ** The latest reading after a live push *)

(** C10: after every live push, [latest] is the pushed reading, also when
    its [created_at] is older than that of the previous latest, which is
    still in the buffer: [latest] follows delivery, not the greatest
    timestamp. *)
Theorem latest_is_the_pushed_reading :
  (∀ st r, latest (on_insert r st) = Some r)
  ∧ (∃ st r newer,
       latest st = Some newer
       ∧ created_at r < created_at newer
       ∧ newer ∈ data (on_insert r st)
       ∧ latest (on_insert r st) = Some r).
Proof.
  split; [intros; apply latest_on_insert|].
  exists (setLatest (Some (sample 5 40)) (setData [sample 5 40] initial_dashboard)),
    (sample 3 41), (sample 5 40).
  split; [reflexivity|]. split; [simpl; lia|].
  split; [|reflexivity].
  change (sample 5 40 ∈ [sample 5 40; sample 3 41]). apply list_elem_of_here.
Qed.

(** ** Alerts *)

Section AlertRules.

Lemma lt_Fin x y : JS.lt (Fin x) (Fin y) = true ↔ (x < y)%Q.
Proof.
  simpl. rewrite negb_true_iff, <- not_true_iff_false, Qle_bool_iff.
  split; [apply Qnot_le_lt|apply Qlt_not_le].
Qed.

Lemma render_alerts_showing st r :
  loading st = false → latest st = Some r →
  render_alerts st = {| lowMoisture := low_moisture_alert r;
                        lowLight := low_light_alert r |}.
Proof. unfold render_alerts. by intros -> ->. Qed.

End AlertRules.

(** C7, as stated, fails: the flags are not a function of an injected
    threshold configuration, and none of them follows the temperature.
    With a moisture threshold of 50 (the upper end of the settings slider)
    and a latest moisture of 40, the claim asks for the low-moisture flag,
    and the dashboard does not raise it; a latest temperature of 40, above
    the default upper threshold of 28, renders the same flags as a
    temperature of 21. *)
Lemma alert_ignores_moisture_threshold :
  let th := {| moistureThreshold := 50; tempThresholdLow := 15;
               tempThresholdHigh := 28; lightThreshold := 100 |} in
  let r := sample 1 40 in
  (moisture r < moistureThreshold th)%Q
  ∧ low_moisture_alert r = false
  ∧ lowMoisture (render_alerts (showing r)) = false
  ∧ (temperature (with_temperature 40 r)
     > tempThresholdHigh default_thresholds)%Q
  ∧ render_alerts (showing (with_temperature 40 r))
    = render_alerts (showing r).
Proof. repeat split. Qed.

(** C7, amended: for every latest Reading shown by the dashboard and the
    default thresholds of the settings modal (moistureLow = 30,
    lightLow = 100), lowMoisture holds iff latest.moisture <
    thresholds.moistureLow and lowLight holds iff latest.lightLux <
    thresholds.lightLow; the dashboard derives no temperature alert, its
    flags do not depend on the temperature.  In particular moisture 25
    yields lowMoisture = true and moisture 35 yields lowMoisture = false. *)
Theorem alerts_at_default_thresholds st r th :
  loading st = false → latest st = Some r →
  (moistureThreshold th == 30)%Q → (lightThreshold th == 100)%Q →
  (lowMoisture (render_alerts st) = true
   ↔ (moisture r < moistureThreshold th)%Q)
  ∧ (lowLight (render_alerts st) = true
     ↔ (light_lux r < lightThreshold th)%Q)
  ∧ (∀ t, render_alerts (setLatest (Some (with_temperature t r)) st)
          = render_alerts st).
Proof.
  intros Hl Hr Hm Hx.
  rewrite (render_alerts_showing st r Hl Hr). simpl.
  unfold low_moisture_alert, low_light_alert.
  rewrite !lt_Fin, Hm, Hx. split; [done|]. split; [done|].
  intros t. unfold render_alerts. simpl. by rewrite Hl.
Qed.

(** Scenario C: with moistureLow = 30, moisture 25 raises the flag and
    moisture 35 does not. *)
Lemma alerts_scenario_C :
  lowMoisture (render_alerts (showing (sample 1 25))) = true
  ∧ lowMoisture (render_alerts (showing (sample 1 35))) = false.
Proof.
  split.
  - apply (alerts_at_default_thresholds (showing (sample 1 25))
             (sample 1 25) default_thresholds); reflexivity.
  - pose proof (alerts_at_default_thresholds (showing (sample 1 35))
                  (sample 1 35) default_thresholds eq_refl eq_refl
                  (Qeq_refl _) (Qeq_refl _)) as ([H _] & _).
    destruct (lowMoisture (render_alerts (showing (sample 1 35))));
      [|reflexivity].
    specialize (H eq_refl). discriminate H.
Defined.

(** ** Window changes *)

(** C8, as stated, fails: when the new window's result is empty, the
    buffer is emptied while [latest] and the statistics of the previous
    window stay on display; when it holds one reading, the statistics
    stay.  Two sessions that end with the same window change and the same
    result display different data. *)
Lemma empty_window_keeps_previous_latest_and_stats :
  let s1 := run mounted (window_change scenario_A []) in
  let s2 := run mounted (window_change scenario_B []) in
  let s3 := run mounted (window_change scenario_A [sample 9 70]) in
  reachable s1
  ∧ data (ui s1) = [] ∧ data (ui s2) = []
  ∧ latest (ui s1) = Some (sample 1 30)
  ∧ latest (ui s2) = Some (sample 20 20)
  ∧ Some (stats (ui s1)) = calculateStats scenario_A
  ∧ totalReadings (stats (ui s1)) ≠ totalReadings (stats (ui s2))
  ∧ data (ui s3) = [sample 9 70]
  ∧ Some (stats (ui s3)) = calculateStats scenario_A.
Proof.
  cbv zeta. split.
  { apply (acts_reachable (window_change_page scenario_A []) _ false).
    vm_compute. reflexivity. }
  repeat split; try reflexivity.
  vm_compute. lia.
Qed.

(** C8, amended: after a window change completes successfully the
    displayed buffer is the new window's query result and the loading flag
    is cleared; [latest] is the last reading of the result when the result
    is not empty, and the statistics are those of the result when it has
    at least 2 readings.  With an empty result [latest] keeps its previous
    value, and with fewer than 2 readings the statistics keep theirs. *)
Theorem window_change_outcome st rs :
  let st' := fetchData_resume (succeeded rs) st in
  data st' = rs
  ∧ loading st' = false
  ∧ (rs ≠ [] → latest st' = last rs)
  ∧ ((2 ≤ length rs)%nat → Some (stats st') = calculateStats rs)
  ∧ (rs = [] → latest st' = latest st)
  ∧ ((length rs < 2)%nat → stats st' = stats st).
Proof.
  cbv zeta. split; [apply data_fetchData_resume|]. split; [done|].
  unfold fetchData_resume, run_calculateStats. simpl.
  destruct rs as [|r rs]; simpl.
  - repeat split; (done || lia).
  - destruct (calculateStats (r :: rs)) as [s|] eqn:Hs; simpl.
    + repeat split; try done. intros Hn.
      rewrite calculateStats_None in Hs by done. done.
    + repeat split; try done. intros Hn.
      rewrite calculateStats_Some in Hs by done. done.
Qed.

Lemma window_change_outcome_witness :
  let st := fetchData_resume (succeeded scenario_A) initial_dashboard in
  latest (fetchData_resume (succeeded scenario_B) st) = Some (sample 20 20)
  ∧ Some (stats (fetchData_resume (succeeded scenario_B) st))
    = calculateStats scenario_B
  ∧ latest (fetchData_resume (succeeded []) st) = Some (sample 1 30)
  ∧ stats (fetchData_resume (succeeded [sample 9 70]) st) = stats st.
Proof.
  intros st.
  destruct (window_change_outcome st scenario_B) as (_ & _ & H1 & H2 & _).
  destruct (window_change_outcome st []) as (_ & _ & _ & _ & H3 & _).
  destruct (window_change_outcome st [sample 9 70])
    as (_ & _ & _ & _ & _ & H4).
  split; [apply H1; discriminate|].
  split; [apply H2; vm_compute; lia|].
  split; [apply H3; reflexivity|].
  apply H4. simpl. lia.
Defined.

(** ** Responses and the displayed range *)

(** C3, as stated, fails on scenario E, a run the page can produce:
    [fetchData] keeps no window generation and compares no token.  With 1h
    on display the user selects 6h; the timer callback calls [fetchData],
    which issues the 6h query; before React commits the loading screen the
    user selects 24h and the 24h query is issued with the 6h query still
    in flight.  The 24h response arrives first, the 6h response last, and
    the buffer ends up holding the 6h response under the range 24h. *)
Lemma stale_response_overwrites_newer_window :
  let shown_first := [sample 1 60; sample 2 61] in
  let stale := scenario_A in
  let fresh := scenario_B in
  acts (mounted, true) (scenario_E_start shown_first)
  = Some (two_in_flight, false)
  ∧ acts (mounted, true) (scenario_E shown_first stale fresh)
    = Some (after_scenario_E, false)
  ∧ reachable two_in_flight
  ∧ inflight two_in_flight = [R6h; R24h]
  ∧ timeRange (ui two_in_flight) = R24h
  ∧ reachable after_scenario_E
  ∧ timeRange (ui after_scenario_E) = R24h
  ∧ data (ui after_scenario_E) = stale
  ∧ latest (ui after_scenario_E) = last stale
  ∧ data (ui after_scenario_E) ≠ fresh.
Proof.
  cbv zeta.
  assert (acts (mounted, true) (scenario_E_start [sample 1 60; sample 2 61])
          = Some (two_in_flight, false)) as H1 by (vm_compute; reflexivity).
  assert (acts (mounted, true)
            (scenario_E [sample 1 60; sample 2 61] scenario_A scenario_B)
          = Some (after_scenario_E, false)) as H2 by (vm_compute; reflexivity).
  split; [exact H1|]. split; [exact H2|].
  split; [exact (acts_reachable _ _ _ H1)|].
  split; [by vm_compute|]. split; [by vm_compute|].
  split; [exact (acts_reachable _ _ _ H2)|].
  split; [by vm_compute|]. split; [by vm_compute|]. split; [by vm_compute|].
  vm_compute. discriminate.
Qed.

(** C3, amended: [fetchData] applies every successful range-query
    response it receives to the displayed buffer, whatever window token it
    was issued for and whatever token is displayed: there is no
    window-generation counter, the displayed token is not consulted and
    not changed, and the other queries stay in flight.  Switching the
    token supersedes only a fetch that has not started: the pending fetch
    timer is replaced by one for the new token, and no query in flight is
    cancelled. *)
Theorem response_applied_whatever_its_range s n tok rs :
  inflight s !! n = Some tok →
  let s' := step s (QueryCompletes n (succeeded rs)) in
  data (ui s') = rs
  ∧ (rs ≠ [] → latest (ui s') = last rs)
  ∧ timeRange (ui s') = timeRange (ui s)
  ∧ inflight s' = delete n (inflight s)
  ∧ ∀ r, r ≠ timeRange (ui s) →
      timer (step s (SelectRange r)) = Some r
      ∧ inflight (step s (SelectRange r)) = inflight s.
Proof.
  intros Hn. cbv zeta. cbn [step]. rewrite Hn. cbn [ui inflight].
  split; [apply data_fetchData_resume|].
  split; [apply latest_fetchData_resume|].
  split; [apply timeRange_fetchData_resume|].
  split; [done|].
  intros r Hr. by rewrite decide_False.
Qed.

Lemma response_applied_whatever_its_range_witness :
  let s' := step two_in_flight (QueryCompletes 0 (succeeded scenario_A)) in
  data (ui s') = scenario_A
  ∧ timeRange (ui s') = R24h
  ∧ inflight s' = [R24h].
Proof.
  intros s'.
  destruct (response_applied_whatever_its_range two_in_flight 0 R6h
              scenario_A eq_refl) as (H1 & _ & H2 & H3 & _).
  split; [exact H1|]. split; [exact H2|exact H3].
Defined.

(** ** Ingest *)



(** * Further properties of the code *)

(** ** Sums, minima and maxima *)

Section Aggregates.
Implicit Types (vs : list Q) (x y lo hi : Q).
Local Open Scope Q_scope.

Lemma foldl_Qplus x vs : foldl Qplus x vs == x + sum vs.
Proof.
  unfold sum. revert x. induction vs as [|v vs IH]; intros x; simpl.
  - ring.
  - rewrite (IH (x + v)), (IH (0 + v)). ring.
Qed.

Lemma sum_cons x vs : sum (x :: vs) == x + sum vs.
Proof. unfold sum at 1. simpl. rewrite foldl_Qplus. ring. Qed.

Lemma Qmin_cases x y : (Qmin x y = x ∧ x <= y) ∨ (Qmin x y = y ∧ y <= x).
Proof.
  unfold Qmin, GenericMinMax.gmin. destruct (x ?= y) eqn:E.
  - left. split; [done|]. apply Qeq_alt in E. rewrite E. apply Qle_refl.
  - left. split; [done|]. apply Qlt_le_weak. by apply Qlt_alt.
  - right. split; [done|]. apply Qlt_le_weak. by apply Qgt_alt.
Qed.

Lemma Qmax_cases x y : (Qmax x y = x ∧ y <= x) ∨ (Qmax x y = y ∧ x <= y).
Proof.
  unfold Qmax, GenericMinMax.gmax. destruct (x ?= y) eqn:E.
  - left. split; [done|]. apply Qeq_alt in E. rewrite E. apply Qle_refl.
  - right. split; [done|]. apply Qlt_le_weak. by apply Qlt_alt.
  - left. split; [done|]. apply Qlt_le_weak. by apply Qgt_alt.
Qed.

Lemma foldl_Qmin_least x vs :
  foldl Qmin x vs ∈ x :: vs ∧ ∀ v, v ∈ x :: vs → foldl Qmin x vs <= v.
Proof.
  revert x. induction vs as [|y vs IH]; intros x; simpl.
  - split; [apply list_elem_of_here|].
    intros v ->%list_elem_of_singleton. apply Qle_refl.
  - destruct (IH (Qmin x y)) as [Hin Hle].
    assert (foldl Qmin (Qmin x y) vs <= Qmin x y) as Hm
      by apply Hle, list_elem_of_here.
    destruct (Qmin_cases x y) as [[Hxy Hc]|[Hxy Hc]]; rewrite Hxy in *.
    + split.
      { apply elem_of_cons in Hin as [->|Hin];
          [apply list_elem_of_here|by do 2 apply list_elem_of_further]. }
      intros v Hv.
      apply elem_of_cons in Hv as [->|Hv]; [done|].
      apply elem_of_cons in Hv as [->|Hv]; [by eapply Qle_trans|].
      by apply Hle, list_elem_of_further.
    + split; [by apply list_elem_of_further|]. intros v Hv.
      apply elem_of_cons in Hv as [->|Hv]; [by eapply Qle_trans|].
      by apply Hle.
Qed.

Lemma foldl_Qmax_greatest x vs :
  foldl Qmax x vs ∈ x :: vs ∧ ∀ v, v ∈ x :: vs → v <= foldl Qmax x vs.
Proof.
  revert x. induction vs as [|y vs IH]; intros x; simpl.
  - split; [apply list_elem_of_here|].
    intros v ->%list_elem_of_singleton. apply Qle_refl.
  - destruct (IH (Qmax x y)) as [Hin Hle].
    assert (Qmax x y <= foldl Qmax (Qmax x y) vs) as Hm
      by apply Hle, list_elem_of_here.
    destruct (Qmax_cases x y) as [[Hxy Hc]|[Hxy Hc]]; rewrite Hxy in *.
    + split.
      { apply elem_of_cons in Hin as [->|Hin];
          [apply list_elem_of_here|by do 2 apply list_elem_of_further]. }
      intros v Hv.
      apply elem_of_cons in Hv as [->|Hv]; [done|].
      apply elem_of_cons in Hv as [->|Hv]; [by eapply Qle_trans|].
      by apply Hle, list_elem_of_further.
    + split; [by apply list_elem_of_further|]. intros v Hv.
      apply elem_of_cons in Hv as [->|Hv]; [by eapply Qle_trans|].
      by apply Hle.
Qed.

Lemma Math_min_max_extremes vs :
  vs ≠ [] → reports_extremes vs (Math_min vs) (Math_max vs).
Proof.
  destruct vs as [|x vs]; [done|]. intros _.
  destruct (foldl_Qmin_least x vs) as [Hmin Hle].
  destruct (foldl_Qmax_greatest x vs) as [Hmax Hge].
  eexists _, _. split; [reflexivity|]. split; [reflexivity|].
  split; [|done]. intros v Hv. split; auto.
Qed.

Lemma length_positive vs : vs ≠ [] → 0 < inject_Z (Z.of_nat (length vs)).
Proof.
  destruct vs; [done|]. intros _.
  change 0 with (inject_Z 0). rewrite <- Zlt_Qlt. simpl. lia.
Qed.

End Aggregates.

(** ** Averages, extremes and order of the readings *)

Section StatisticsMore.
Implicit Types (vs : list Q) (rs : list SensorReading).

(** The trend of a series is that of its last 20 values. *)
Lemma trend_drop_20 vs : trend vs = trend (drop (length vs - 20) vs).
Proof.
  assert (slice (-10) None (drop (length vs - 20) vs) = slice (-10) None vs)
    as Hrecent.
  { change (-10) with (- Z.of_nat 10). rewrite !slice_last by lia.
    rewrite length_drop, drop_drop. f_equal. lia. }
  assert (slice (-20) (Some (-10)) (drop (length vs - 20) vs)
          = slice (-20) (Some (-10)) vs) as Hold.
  { change (-10) with (- Z.of_nat 10).
    change (-20) with (- Z.of_nat (10 + 10)).
    rewrite !slice_before_last by lia.
    rewrite length_drop, drop_drop. f_equal; [lia|f_equal; lia]. }
  unfold trend. cbv zeta. by rewrite Hrecent, Hold.
Qed.

Lemma sum_positive vs : (∀ v, v ∈ vs → (0 < v)%Q) → vs ≠ [] → (0 < sum vs)%Q.
Proof.
  induction vs as [|x vs IH]; [done|]. intros Hpos _.
  rewrite sum_cons.
  assert (0 < x)%Q as Hx by apply Hpos, list_elem_of_here.
  destruct (decide (vs = [])) as [->|Hne].
  - unfold sum. simpl. by rewrite Qplus_0_r.
  - apply Qlt_trans with (0 + sum vs)%Q.
    + rewrite Qplus_0_l. apply IH; [|done].
      intros v Hv. by apply Hpos, list_elem_of_further.
    + by apply Qplus_lt_l.
Qed.

Lemma mean_positive vs :
  (∀ v, v ∈ vs → (0 < v)%Q) → vs ≠ [] → (0 < Spec.mean vs)%Q.
Proof.
  intros Hpos Hne. unfold Spec.mean.
  apply Qlt_shift_div_l; [by apply length_positive|].
  rewrite Qmult_0_l. by apply sum_positive.
Qed.

Lemma icon_of_trend t q :
  t ≈ Fin q →
  StatCard_trend (Some t)
  = Some (if Qle_bool q 0 then TrendingDown else TrendingUp).
Proof.
  destruct t as [x| | |]; simpl; try done. intros Hx. f_equal.
  assert (Qle_bool x 0 = Qle_bool q 0) as ->; [|by destruct (Qle_bool q 0)].
  apply eq_true_iff_eq. by rewrite !Qle_bool_iff, Hx.
Qed.

End StatisticsMore.

(** X1: for every series of at least 2 readings, the minimum and maximum
    that [calculateStats] reports for each metric bound every reading's
    value of that metric and are each the value of some reading; the
    reported count is the number of readings. *)
Theorem calculateStats_extremes readings :
  (2 ≤ length readings)%nat →
  ∃ s, calculateStats readings = Some s
       ∧ totalReadings s = length readings
       ∧ reports_extremes (moisture <$> readings)
           (moistureMin s) (moistureMax s)
       ∧ reports_extremes (temperature <$> readings) (tempMin s) (tempMax s)
       ∧ reports_extremes (light_lux <$> readings) (lightMin s) (lightMax s).
Proof.
  intros Hn. eexists. split; [by apply calculateStats_Some|].
  split; [done|]. simpl.
  repeat split; apply Math_min_max_extremes; by apply fmap_nonempty.
Qed.

Lemma calculateStats_extremes_scenario_A :
  ∃ s, calculateStats scenario_A = Some s
       ∧ totalReadings s = 2%nat
       ∧ reports_extremes [50; 30]%Q (moistureMin s) (moistureMax s)
       ∧ reports_extremes [21; 21]%Q (tempMin s) (tempMax s)
       ∧ reports_extremes [400; 400]%Q (lightMin s) (lightMax s).
Proof. apply (calculateStats_extremes scenario_A). simpl. lia. Defined.

(** X4: the trends read only the last 20 readings: two series of at least
    2 readings that end with the same 20 readings (or are equal, when
    shorter) get the same three trends. *)
Theorem calculateStats_trend_reads_last_20 readings readings' :
  (2 ≤ length readings)%nat → (2 ≤ length readings')%nat →
  drop (length readings - 20) readings
  = drop (length readings' - 20) readings' →
  ∃ s s', calculateStats readings = Some s
          ∧ calculateStats readings' = Some s'
          ∧ moistureTrend s = moistureTrend s'
          ∧ tempTrend s = tempTrend s'
          ∧ lightTrend s = lightTrend s'.
Proof.
  intros Hn Hn' Htail.
  eexists _, _. split; [by apply calculateStats_Some|].
  split; [by apply calculateStats_Some|]. simpl.
  assert (∀ f : SensorReading → Q,
            trend (f <$> readings) = trend (f <$> readings')) as Hf.
  { intros f. rewrite (trend_drop_20 (f <$> readings)).
    rewrite (trend_drop_20 (f <$> readings')).
    by rewrite !length_fmap, <- !fmap_drop, Htail. }
  auto.
Qed.

Lemma calculateStats_trend_reads_last_20_witness :
  ∃ s s', calculateStats (sample 0 99 :: scenario_B) = Some s
          ∧ calculateStats scenario_B = Some s'
          ∧ moistureTrend s = moistureTrend s'
          ∧ tempTrend s = tempTrend s'
          ∧ lightTrend s = lightTrend s'.
Proof.
  apply (calculateStats_trend_reads_last_20 (sample 0 99 :: scenario_B)
           scenario_B).
  - simpl. lia.
  - simpl. lia.
  - reflexivity.
Defined.

(** X5: with at least 2 and at most 10 readings, all of positive moisture,
    the moisture card shows the rising indicator, whatever the order of
    the values: the trend is then their mean. *)
Theorem short_positive_series_shows_rising_trend readings :
  (2 ≤ length readings)%nat → (length readings ≤ 10)%nat →
  (∀ r, r ∈ readings → (0 < moisture r)%Q) →
  ∃ s, calculateStats readings = Some s
       ∧ StatCard_trend (Some (moistureTrend s)) = Some TrendingUp.
Proof.
  intros Hn Hshort Hpos.
  eexists. split; [by apply calculateStats_Some|]. cbn [moistureTrend].
  destruct (trend_obeys_law (moisture <$> readings)) as (_ & _ & Hmean).
  rewrite (icon_of_trend _ _ (Hmean ltac:(by rewrite length_fmap))).
  assert (0 < Spec.mean (moisture <$> readings))%Q as Hm.
  { apply mean_positive; [|by apply fmap_nonempty].
    intros v (r & -> & Hr)%list_elem_of_fmap. by apply Hpos. }
  destruct (Qle_bool _ 0) eqn:E; [|done].
  apply Qle_bool_iff in E. by apply Qle_not_lt in E.
Qed.

Lemma falling_moisture_shows_rising_trend :
  ∃ s, calculateStats scenario_A = Some s
       ∧ StatCard_trend (Some (moistureTrend s)) = Some TrendingUp.
Proof.
  apply (short_positive_series_shows_rising_trend scenario_A).
  - simpl. lia.
  - simpl. lia.
  - intros r Hr.
    repeat (apply elem_of_cons in Hr as [->|Hr]; [reflexivity|]).
    by apply elem_of_nil in Hr.
Defined.

(** ** Status colours and alerts *)

Section Colours.

Lemma exceeds_true v c : exceeds v c = true ↔ (c < v)%Q.
Proof. apply lt_Fin. Qed.

Lemma exceeds_false v c : exceeds v c = false ↔ (v <= c)%Q.
Proof.
  rewrite <- not_true_iff_false, exceeds_true.
  split; [apply Qnot_lt_le|apply Qle_not_lt].
Qed.

End Colours.

(** Turns the comparisons of a colour or alert into inequalities. *)
Ltac bands :=
  repeat match goal with
  | H : exceeds _ _ = true |- _ => apply exceeds_true in H
  | H : exceeds _ _ = false |- _ => apply exceeds_false in H
  | H : JS.lt (Fin _) (Fin _) = true |- _ => apply lt_Fin in H
  | |- JS.lt (Fin _) (Fin _) = true => apply lt_Fin
  end.

(** X7: the status dot agrees with the alerts: whenever the low-moisture
    alert is raised the moisture dot is orange or red, a red moisture dot
    comes with the alert, and whenever the low-light alert is raised the
    light dot is gray. *)
Theorem alerts_agree_with_status_colours r :
  (low_moisture_alert r = true →
     getStatusColor (moisture r) Moisture = "text-orange-500"
     ∨ getStatusColor (moisture r) Moisture = "text-red-500")
  ∧ (getStatusColor (moisture r) Moisture = "text-red-500" →
     low_moisture_alert r = true)
  ∧ (low_light_alert r = true →
     getStatusColor (light_lux r) Light = "text-gray-500").
Proof.
  unfold low_moisture_alert, low_light_alert, getStatusColor.
  split; [|split].
  - intros H.
    destruct (exceeds (moisture r) 60) eqn:E1; [bands; lra|].
    destruct (exceeds (moisture r) 40) eqn:E2; [bands; lra|].
    destruct (exceeds (moisture r) 20); auto.
  - destruct (exceeds (moisture r) 60) eqn:E1; [done|].
    destruct (exceeds (moisture r) 40) eqn:E2; [done|].
    destruct (exceeds (moisture r) 20) eqn:E3; [done|].
    intros _. bands. lra.
  - intros H.
    destruct (exceeds (light_lux r) 1000) eqn:E1; [bands; lra|].
    destruct (exceeds (light_lux r) 500) eqn:E2; [bands; lra|].
    destruct (exceeds (light_lux r) 200) eqn:E3; [bands; lra|done].
Qed.

Lemma alerts_agree_with_status_colours_witness :
  (getStatusColor (moisture (sample 1 25)) Moisture = "text-orange-500"
   ∨ getStatusColor (moisture (sample 1 25)) Moisture = "text-red-500")
  ∧ low_moisture_alert (sample 1 15) = true.
Proof.
  split.
  - apply (proj1 (alerts_agree_with_status_colours (sample 1 25))).
    reflexivity.
  - apply (proj1 (proj2 (alerts_agree_with_status_colours (sample 1 15)))).
    reflexivity.
Defined.

(** ** Invariants of every run of the dashboard *)

Section Runs.
Implicit Types (s : Session) (st : Dashboard) (e : Event).

Lemma last_append_reading r b : last (append_reading r b) = Some r.
Proof.
  rewrite append_reading_drop, drop_app_le by (unfold cap; lia).
  apply last_snoc.
Qed.

Lemma run_snoc s es e : run s (es ++ [e]) = step (run s es) e.
Proof. unfold run. by rewrite foldl_app. Qed.

Lemma data_setLoading b st : data (setLoading b st) = data st.
Proof. reflexivity. Qed.

Lemma latest_is_last_resume res st :
  latest_is_last st → latest_is_last (fetchData_resume res st).
Proof.
  unfold latest_is_last, fetchData_resume, run_calculateStats.
  destruct (error res), (readings res) as [rs|]; simpl; try done.
  intros _. destruct rs as [|r rs]; simpl; [by left|].
  right. by destruct (calculateStats (r :: rs)).
Qed.

Lemma latest_is_last_step s e :
  latest_is_last (ui s) → latest_is_last (ui (step s e)).
Proof.
  intros H. destruct e as [r| |n res|r|]; simpl.
  - by destruct (decide (r = timeRange (ui s))).
  - by destruct (timer s).
  - destruct (inflight s !! n); [|done]. by apply latest_is_last_resume.
  - right. simpl. by rewrite last_append_reading.
  - by left.
Qed.

Lemma loading_pending_step s e :
  (loading (ui s) = true → fetch_pending s) →
  loading (ui (step s e)) = true → fetch_pending (step s e).
Proof.
  intros H.
  destruct e as [r| |n res|r|]; simpl.
  - destruct (decide (r = timeRange (ui s))); [done|]. by right.
  - case_eq (timer s); [intros r Hr|done]. intros _. left. simpl.
    by destruct (inflight s).
  - case_eq (inflight s !! n); [intros tok Hn|done]. done.
  - exact H.
  - exact H.
Qed.

End Runs.

(** X8: in every run of handler invocations from mount, a non-empty
    buffer ends with the reading shown as latest: the last row of a fetch
    and the newest live push are both stored last and shown. *)
Theorem nonempty_buffer_ends_with_latest es :
  latest_is_last (ui (run mounted es)).
Proof.
  induction es as [|e es IH] using rev_ind; [by left|].
  rewrite run_snoc. by apply latest_is_last_step.
Qed.

(** X10: live pushes never refresh the statistics: after any sequence of
    pushes the statistics are those from before, while the buffer and the
    latest reading follow the pushes. *)
Theorem pushes_leave_stats st rs :
  stats (pushes st rs) = stats st
  ∧ loading (pushes st rs) = loading st
  ∧ timeRange (pushes st rs) = timeRange st
  ∧ (rs ≠ [] → latest (pushes st rs) = last rs).
Proof.
  induction rs as [|r rs IH] using rev_ind; [done|].
  rewrite pushes_snoc. destruct IH as (H1 & H2 & H3 & _).
  repeat split; try done. intros _. simpl. by rewrite last_snoc.
Qed.

(** X11: the loading screen is never stuck: in every session the rendered
    page can produce, while the loading screen is up a range query is in
    flight or the fetch timer is pending. *)
Theorem loading_screen_has_fetch_pending s :
  reachable s → loading (ui s) = true → fetch_pending s.
Proof.
  intros [shown H].
  induction H as [|s shown _ IH|s shown e _ IH _]; [by right|done|].
  by apply loading_pending_step.
Qed.

Lemma loading_screen_has_fetch_pending_witness :
  fetch_pending (step mounted TimerFires).
Proof.
  apply loading_screen_has_fetch_pending; [|reflexivity].
  exists true. by apply (rendering_handle mounted true TimerFires); [constructor|].
Defined.

(** X12: a failed range query (an error, or no data) changes nothing on
    display: its completion keeps buffer, latest reading, statistics and
    range, clears the loading flag, and leaves the rest of the pending
    work (the fetch timer, the other queries in flight) as it was. *)
Theorem failed_query_keeps_display s n tok res :
  inflight s !! n = Some tok →
  error res = true ∨ readings res = None →
  let s' := step s (QueryCompletes n res) in
  data (ui s') = data (ui s)
  ∧ latest (ui s') = latest (ui s)
  ∧ stats (ui s') = stats (ui s)
  ∧ timeRange (ui s') = timeRange (ui s)
  ∧ loading (ui s') = false
  ∧ inflight s' = delete n (inflight s)
  ∧ timer s' = timer s.
Proof.
  intros Hn Hres. cbv zeta. cbn [step]. rewrite Hn. cbn [ui inflight timer].
  assert (fetchData_resume res (ui s) = setLoading false (ui s)) as ->.
  { unfold fetchData_resume.
    destruct Hres as [->| ->]; [done|by destruct (error res)]. }
  done.
Qed.

Lemma failed_query_keeps_display_witness :
  let s := step mounted TimerFires in
  let s' := step s (QueryCompletes 0 {| readings := None; error := true |}) in
  data (ui s') = [] ∧ loading (ui s') = false ∧ inflight s' = [].
Proof.
  intros s s'.
  destruct (failed_query_keeps_display s 0 R6h
              {| readings := None; error := true |} eq_refl)
    as (H1 & _ & _ & _ & H2 & H3 & _).
  - by left.
  - split; [exact H1|]. split; [exact H2|exact H3].
Defined.

(** ** The history route *)

Section HistoryRoute.
Import History.
Context {Err : Type} (String_ : Err → string).
Implicit Types (params : list (string * string)) (call : StoreCall).
Implicit Types (store : StoreCall → option Err).

Lemma deletion_answer call store text :
  deletion String_ call store text
  = (Some call,
     match store call with
     | Some e => failed 500 (String_ e)
     | None => History.succeeded text
     end).
Proof. unfold deletion. by destruct (store call). Qed.

(** [DELETE] by cases of the request. *)
Lemma DELETE_cases params store :
  (∃ call text,
     names_deletion params call
     ∧ DELETE String_ params store
       = (Some call,
          match store call with
          | Some e => failed 500 (String_ e)
          | None => History.succeeded text
          end))
  ∨ ((∀ call, ¬ names_deletion params call)
     ∧ ∃ text, DELETE String_ params store = (None, failed 400 text)).
Proof.
  unfold DELETE, names_deletion. cbv zeta.
  destruct (decide (get params "action" = Some "clear_all"%string)) as [Ha|Ha].
  { left. eexists _, _. split; [by left|]. apply deletion_answer. }
  destruct (decide (get params "action" = Some "clear_device"%string))
    as [Hd|Hd].
  - destruct (get params "device_id") as [[|a d]|] eqn:Hid.
    + right. split; [|by eexists].
      intros call [[? _]|(_ & d & [= <-] & ? & _)]; done.
    + left. eexists _, _. split; [|apply deletion_answer].
      right. split; [done|]. by eexists.
    + right. split; [|by eexists].
      intros call [[? _]|(_ & d & ? & _)]; done.
  - right. split; [|by eexists].
    intros call [[? _]|[? _]]; done.
Qed.

End HistoryRoute.

(** X13: [DELETE] asks a deletion of the store exactly for the requests
    that name one ([clear_all], or [clear_device] with a non-empty
    [device_id]), and it is the deletion they name; every other request is
    answered 400 with nothing asked of the store.  When a deletion is
    asked, the answer is 200 with [success] if the store reports no error,
    and 500 with the text [String(error)] of the store's error otherwise.
    [success] is reported exactly with 200. *)
Theorem DELETE_outcome {Err : Type} (String_ : Err → string) params store :
  let answer := History.DELETE String_ params store in
  (∀ call, answer.1 = Some call ↔ History.names_deletion params call)
  ∧ (answer.1 = None ↔ History.status answer.2 = 400%nat)
  ∧ (History.success answer.2 = true ↔ History.status answer.2 = 200%nat)
  ∧ (∀ call, answer.1 = Some call →
       (store call = None →
          History.status answer.2 = 200%nat
          ∧ History.error answer.2 = None)
       ∧ ∀ e, store call = Some e →
           History.status answer.2 = 500%nat
           ∧ History.error answer.2 = Some (String_ e)).
Proof.
  cbv zeta.
  assert (∀ c c', History.names_deletion params c →
                  History.names_deletion params c' → c = c') as Hfun.
  { intros c c' [[Ha ->]|(Ha & d & Hd & _ & ->)]
             [[Ha' ->]|(Ha' & d' & Hd' & _ & ->)]; try congruence. }
  destruct (DELETE_cases String_ params store)
    as [(call & text & Hname & ->)|(Hnone & text & ->)]; simpl.
  - split; [intros c; split; [by intros [= <-]|intros ?; f_equal; eauto]|].
    destruct (store call) as [e|] eqn:Hs; simpl;
      (split; [done|]); (split; [done|]);
      intros c [= <-]; rewrite Hs; split; try done; by intros e' [= <-].
  - split; [intros c; split; [done|intros ?; by destruct (Hnone c)]|].
    done.
Qed.

Lemma DELETE_outcome_witness :
  let String_ := λ _ : unit, "[object Object]"%string in
  let params := [("action", "clear_device"); ("device_id", "A")]%string in
  let answer := History.DELETE String_ params (λ _, Some ()) in
  answer.1 = Some (History.delete_eq_device_id "A")
  ∧ History.status answer.2 = 500%nat
  ∧ History.error answer.2 = Some "[object Object]"%string.
Proof.
  intros String_ params answer.
  destruct (DELETE_outcome String_ params (λ _, Some ()))
    as (H1 & _ & _ & H2).
  assert (answer.1 = Some (History.delete_eq_device_id "A")) as Hcall.
  { apply H1. right. split; [reflexivity|].
    exists "A"%string. split; [reflexivity|]. split; [discriminate|reflexivity]. }
  split; [exact Hcall|].
  destruct (H2 _ Hcall) as [_ He]. exact (He () eq_refl).
Defined.

(** X16: the dashboard's [clearHistory] names a deletion, so the route
    never answers it with 400.  When the store reports no error the buffer
    is emptied and no latest reading is left; when it reports one the
    display stays as it was.  In both cases the statistics, the loading
    flag and the range are untouched. *)
Theorem clearHistory_follows_store {Err : Type} (String_ : Err → string)
    store st :
  let answer := History.DELETE String_ clearHistory_query store in
  let st' := clearHistory_resume answer.2 st in
  answer.1 = Some (History.delete_neq_id 0)
  ∧ History.status answer.2 ≠ 400%nat
  ∧ (store (History.delete_neq_id 0) = None →
     data st' = [] ∧ latest st' = None)
  ∧ (store (History.delete_neq_id 0) ≠ None → st' = st)
  ∧ stats st' = stats st
  ∧ loading st' = loading st
  ∧ timeRange st' = timeRange st.
Proof.
  cbv zeta. unfold History.DELETE, clearHistory_query, History.deletion.
  simpl. destruct (store (History.delete_neq_id 0)) as [e|]; simpl;
    repeat split; try done.
Qed.

Lemma clearHistory_follows_store_witness :
  let String_ := λ _ : unit, "[object Object]"%string in
  let st := setLatest (Some (sample 1 30))
              (setData scenario_A initial_dashboard) in
  let answer := History.DELETE String_ clearHistory_query (λ _, None) in
  data (clearHistory_resume answer.2 st) = []
  ∧ latest (clearHistory_resume answer.2 st) = None.
Proof.
  intros String_ st answer.
  destruct (clearHistory_follows_store String_ (λ _, None) st)
    as (_ & _ & H & _).
  by apply H.
Defined.

(** ** The ingest route, continued *)

Section IngestMore.
Import Ingest.

Lemma numeric_field_None v :
  numeric_field v = None ↔ ∃ y, v = Some y ∧ stringifies y = false.
Proof.
  unfold numeric_field, parseFloat. destruct v as [y|]; simpl.
  - destruct (stringifies y) eqn:E; simpl.
    + split; [done|]. intros (y' & [= <-] & ?). congruence.
    + split; [|done]. intros _. by exists y.
  - split; [done|]. by intros (y & ? & _).
Qed.

End IngestMore.

(** X17: [POST] inserts nothing (and answers through its [catch] block)
    exactly when the body is [null] or one of the properties [soil],
    [temperature], [light_lux] is present without a primitive value (an
    object with a [toString] entry of its own, or an array holding one). *)
Theorem POST_fails_exactly body now :
  Ingest.POST body now = None
  ↔ body = Ingest.JNull
    ∨ ∃ key y, key ∈ ["soil"; "temperature"; "light_lux"]%string
               ∧ Ingest.property body key = Some y
               ∧ Ingest.stringifies y = false.
Proof.
  assert (∀ key, key ∈ ["soil"; "temperature"; "light_lux"]%string ↔
            key = "soil"%string ∨ key = "temperature"%string
            ∨ key = "light_lux"%string) as Hkeys.
  { intros key. rewrite !elem_of_cons, elem_of_nil. tauto. }
  assert (body ≠ Ingest.JNull →
          (Ingest.POST body now = None
           ↔ Ingest.numeric_field (Ingest.property body "soil") = None
             ∨ Ingest.numeric_field (Ingest.property body "temperature") = None
             ∨ Ingest.numeric_field (Ingest.property body "light_lux") = None))
    as Hpost.
  { intros Hb. unfold Ingest.POST.
    destruct body; try done;
      destruct (Ingest.numeric_field (Ingest.property _ "soil"));
      destruct (Ingest.numeric_field (Ingest.property _ "temperature"));
      destruct (Ingest.numeric_field (Ingest.property _ "light_lux"));
      simpl; intuition congruence. }
  assert (body = Ingest.JNull ∨ body ≠ Ingest.JNull) as [->|Hb]
    by (destruct body; auto).
  { split; [by left|done]. }
  rewrite (Hpost Hb), !numeric_field_None. split.
  - intros [(y & ? & ?)|[(y & ? & ?)|(y & ? & ?)]]; right;
      eexists _, y; rewrite Hkeys; eauto 6.
  - intros [?|(key & y & Hk & Hy & Hs)]; [done|].
    apply Hkeys in Hk as [->|[->| ->]]; eauto 6.
Qed.

(** X18: the device id of an inserted row is never missing or empty: it
    is the submitted [device_id] when that is truthy, and the name
    [ESP32_PlantGuard_01] when it is missing, [null], [false], [0] or the
    empty string. *)
Theorem POST_device_id body now row :
  Ingest.POST body now = Some row →
  Ingest.truthy (Some (Ingest.device_id row)) = true
  ∧ (Ingest.truthy (Ingest.property body "device_id") = true →
     Some (Ingest.device_id row) = Ingest.property body "device_id")
  ∧ (Ingest.truthy (Ingest.property body "device_id") = false →
     Ingest.device_id row = Ingest.JStr "ESP32_PlantGuard_01").
Proof.
  unfold Ingest.POST. intros H.
  assert (Ingest.device_id row
          = if Ingest.truthy (Ingest.property body "device_id")
            then default Ingest.JNull (Ingest.property body "device_id")
            else Ingest.JStr "ESP32_PlantGuard_01") as ->.
  { destruct body; try discriminate H;
      destruct (Ingest.numeric_field (Ingest.property _ "soil"));
      try discriminate H;
      destruct (Ingest.numeric_field (Ingest.property _ "temperature"));
      try discriminate H;
      destruct (Ingest.numeric_field (Ingest.property _ "light_lux"));
      try discriminate H; by injection H as <-. }
  destruct (Ingest.property body "device_id") as [y|] eqn:Hy.
  - destruct (Ingest.truthy (Some y)) eqn:E; cbn [default]; by rewrite ?E.
  - done.
Qed.

Lemma POST_device_id_witness :
  ∃ row, Ingest.POST submission 1000 = Some row
         ∧ Ingest.device_id row = Ingest.JStr "ESP32_Balcony".
Proof.
  eexists. split; [reflexivity|].
  destruct (POST_device_id submission 1000 _ eq_refl) as (_ & H & _).
  specialize (H eq_refl).
  exact (f_equal (default Ingest.JNull) H).
Defined.
